(** * Anytime Dynamic A* planner ([ADA_star]): a shallow embedding

    This development embeds the planner of
    [networkx/algorithms/shortest_paths/ada_star.py] and states its
    properties.

    Modelling choices.
    - Numbers (edge weights, [g], [rhs], key components) are exact rationals
      extended with [+inf] ([math.inf]); Python's [==], [<], [<=] on numbers
      become [Qeq], [Qlt], [Qle] on the finite part.
    - Nodes are identified by their label, a string ([str(node)] is the
      label itself).
    - A Python [dict] is an insertion-ordered association list with unique
      keys: iteration order matters for [smallest_key], for the order in
      which neighbours are updated, and for [min] in [extract_path].
    - The graph is the adjacency structure [G[u][v][attr]] of networkx: a
      dict of dicts of attribute dicts.
    - Exceptions are an explicit error result; [while True] loops take a
      fuel argument and answer [NoFuel] when it is exhausted.

    Contents: the model of the planner; the properties of inputs and the
    invariants the statements use; concrete inputs; lemmas on each
    operation; the statements C1 to C10. *)

From Stdlib Require Import List String Ascii Bool Arith ZArith QArith Lia Lqa.
Import ListNotations.
Local Open Scope string_scope.
Local Open Scope list_scope.
Local Open Scope Q_scope.

(** ** Results of fallible computations *)

Inductive exn : Type :=
| KeyError (k : string)
| ValueError
| NodeNotFound (msg : string).

Inductive result (A : Type) : Type :=
| Ok (a : A)
| Raise (e : exn)
| NoFuel.

Arguments Ok {A} a.
Arguments Raise {A} e.
Arguments NoFuel {A}.

Definition bind {A B : Type} (m : result A) (k : A -> result B) : result B :=
  match m with
  | Ok a => k a
  | Raise e => Raise e
  | NoFuel => NoFuel
  end.

Declare Scope result_scope.
Delimit Scope result_scope with result.
Notation "x <- m ;; k" := (bind m (fun x => k))
  (at level 61, m at next level, right associativity) : result_scope.
Local Open Scope result_scope.

(** ** Extended numbers *)

Inductive num : Type :=
| Fin (q : Q)
| Inf.

Definition num_add (a b : num) : num :=
  match a, b with
  | Fin x, Fin y => Fin (x + y)
  | _, _ => Inf
  end.

Definition Qlt_bool (x y : Q) : bool := negb (Qle_bool y x).

Definition num_ltb (a b : num) : bool :=
  match a, b with
  | Fin x, Fin y => Qlt_bool x y
  | Fin _, Inf => true
  | Inf, _ => false
  end.

Definition num_leb (a b : num) : bool :=
  match a, b with
  | Fin x, Fin y => Qle_bool x y
  | _, Inf => true
  | Inf, Fin _ => false
  end.

Definition num_eqb (a b : num) : bool :=
  match a, b with
  | Fin x, Fin y => Qeq_bool x y
  | Inf, Inf => true
  | _, _ => false
  end.

(** Python's [min(a, b)]: the first argument unless the second is smaller. *)
Definition num_min (a b : num) : num := if num_ltb b a then b else a.

Definition num_lt (a b : num) : Prop :=
  match a, b with
  | Fin x, Fin y => x < y
  | Fin _, Inf => True
  | Inf, _ => False
  end.

Definition num_eq (a b : num) : Prop :=
  match a, b with
  | Fin x, Fin y => x == y
  | Inf, Inf => True
  | _, _ => False
  end.

Definition is_fin (a : num) : bool :=
  match a with Fin _ => true | Inf => false end.

(** ** Dictionaries and sets *)

Definition node := string.

Section Dict.
Context {V : Type}.

Definition dict := list (string * V).

Fixpoint dict_get (k : string) (d : dict) : option V :=
  match d with
  | [] => None
  | (k', v) :: d' => if String.eqb k k' then Some v else dict_get k d'
  end.

Definition dict_mem (k : string) (d : dict) : bool :=
  match dict_get k d with Some _ => true | None => false end.

(** [d[k] = v]: replaces in place, or appends a new entry. *)
Fixpoint dict_set (k : string) (v : V) (d : dict) : dict :=
  match d with
  | [] => [(k, v)]
  | (k', v') :: d' =>
      if String.eqb k k' then (k, v) :: d' else (k', v') :: dict_set k v d'
  end.

(** The dictionary left by [d.pop(k)]. *)
Fixpoint dict_pop (k : string) (d : dict) : dict :=
  match d with
  | [] => []
  | (k', v') :: d' =>
      if String.eqb k k' then dict_pop k d' else (k', v') :: dict_pop k d'
  end.

Definition dict_keys (d : dict) : list string := map fst d.

(** [d[k]], raising [KeyError] on a missing key. *)
Definition lookup (k : string) (d : dict) : result V :=
  match dict_get k d with
  | Some v => Ok v
  | None => Raise (KeyError k)
  end.
End Dict.

Arguments dict V : clear implicits.

Definition set_mem (x : node) (s : list node) : bool :=
  existsb (String.eqb x) s.

Definition set_add (x : node) (s : list node) : list node :=
  if set_mem x s then s else s ++ [x].

(** ** The planner *)

(** A key is the two-element list [[primary, secondary]]. *)
Definition prio := (num * num)%type.

Definition attrs := dict num.
Definition graph := dict (dict attrs).

Record planner : Type := mkPlanner {
  s_start : node;
  s_goal : node;
  heursistic : node -> node -> Q;
  weight : string;
  G : graph;
  g : dict num;
  rhs : dict num;
  OPEN : dict prio;
  epsilon : Q;
  CLOSED : list node;
  INCONS : dict nat;
  visited : list node;
  initialize : bool
}.

Definition with_G (x : graph) (p : planner) : planner :=
  mkPlanner (s_start p) (s_goal p) (heursistic p) (weight p) x (g p) (rhs p)
    (OPEN p) (epsilon p) (CLOSED p) (INCONS p) (visited p) (initialize p).

Definition with_g (x : dict num) (p : planner) : planner :=
  mkPlanner (s_start p) (s_goal p) (heursistic p) (weight p) (G p) x (rhs p)
    (OPEN p) (epsilon p) (CLOSED p) (INCONS p) (visited p) (initialize p).

Definition with_rhs (x : dict num) (p : planner) : planner :=
  mkPlanner (s_start p) (s_goal p) (heursistic p) (weight p) (G p) (g p) x
    (OPEN p) (epsilon p) (CLOSED p) (INCONS p) (visited p) (initialize p).

Definition with_OPEN (x : dict prio) (p : planner) : planner :=
  mkPlanner (s_start p) (s_goal p) (heursistic p) (weight p) (G p) (g p) (rhs p)
    x (epsilon p) (CLOSED p) (INCONS p) (visited p) (initialize p).

Definition with_epsilon (x : Q) (p : planner) : planner :=
  mkPlanner (s_start p) (s_goal p) (heursistic p) (weight p) (G p) (g p) (rhs p)
    (OPEN p) x (CLOSED p) (INCONS p) (visited p) (initialize p).

Definition with_CLOSED (x : list node) (p : planner) : planner :=
  mkPlanner (s_start p) (s_goal p) (heursistic p) (weight p) (G p) (g p) (rhs p)
    (OPEN p) (epsilon p) x (INCONS p) (visited p) (initialize p).

Definition with_INCONS (x : dict nat) (p : planner) : planner :=
  mkPlanner (s_start p) (s_goal p) (heursistic p) (weight p) (G p) (g p) (rhs p)
    (OPEN p) (epsilon p) (CLOSED p) x (visited p) (initialize p).

Definition with_visited (x : list node) (p : planner) : planner :=
  mkPlanner (s_start p) (s_goal p) (heursistic p) (weight p) (G p) (g p) (rhs p)
    (OPEN p) (epsilon p) (CLOSED p) (INCONS p) x (initialize p).

Definition with_initialize (x : bool) (p : planner) : planner :=
  mkPlanner (s_start p) (s_goal p) (heursistic p) (weight p) (G p) (g p) (rhs p)
    (OPEN p) (epsilon p) (CLOSED p) (INCONS p) (visited p) x.

(** [get_neighbor]: [self.G[s].keys()]. *)
Definition get_neighbor (p : planner) (s : node) : result (list node) :=
  adj <- lookup s (G p) ;;
  Ok (dict_keys adj).

(** [cost]: [self.G[s][s_prime][self.weight]]. *)
Definition cost (p : planner) (s s' : node) : result num :=
  adj <- lookup s (G p) ;;
  a <- lookup s' adj ;;
  lookup (weight p) a.

(** [key]. *)
Definition key (p : planner) (s : node) : result prio :=
  gs <- lookup s (g p) ;;
  rs <- lookup s (rhs p) ;;
  if num_ltb rs gs
  then Ok (num_add rs (Fin (epsilon p * heursistic p (s_start p) s)), rs)
  else Ok (num_add gs (Fin (heursistic p (s_start p) s)), gs).

(** [key_lt]. *)
Definition key_lt (key1 key2 : prio) : bool :=
  if num_ltb (fst key1) (fst key2) then true
  else if num_eqb (fst key1) (fst key2) && num_ltb (snd key1) (snd key2)
       then true
       else false.

(** [smallest_key]: one scan over [OPEN.items()] carrying
    [(min_index, [min_primary, min_secondary])]. *)
Definition smallest_key_step (acc : option node * prio) (kv : node * prio)
  : option node * prio :=
  let '(min_index, (min_primary, min_secondary)) := acc in
  let '(k, value) := kv in
  if num_leb (fst value) min_primary
  then if num_ltb (snd value) min_secondary
       then (Some k, (fst value, snd value))
       else (Some k, (fst value, min_secondary))
  else (min_index, (min_primary, min_secondary)).

Definition smallest_key (p : planner) : option node * prio :=
  fold_left smallest_key_step (OPEN p) (None, (Inf, Inf)).

(** The loop of [update_state] that recomputes [rhs[s]]. *)
Fixpoint update_rhs (s : node) (xs : list node) (p : planner) : result planner :=
  match xs with
  | [] => Ok p
  | x :: xs' =>
      r <- lookup s (rhs p) ;;
      gx <- lookup x (g p) ;;
      c <- cost p s x ;;
      update_rhs s xs' (with_rhs (dict_set s (num_min r (num_add gx c)) (rhs p)) p)
  end.

(** [update_state]. *)
Definition update_state (s : node) (p : planner) : result planner :=
  p1 <- (if String.eqb s (s_goal p) then Ok p
         else
           let p0 := with_rhs (dict_set s Inf (rhs p)) p in
           xs <- get_neighbor p0 s ;;
           update_rhs s xs p0) ;;
  let p2 := if dict_mem s (OPEN p1) then with_OPEN (dict_pop s (OPEN p1)) p1 else p1 in
  gs <- lookup s (g p2) ;;
  rs <- lookup s (rhs p2) ;;
  if negb (num_eqb gs rs)
  then if negb (set_mem s (CLOSED p2))
       then k <- key p2 s ;; Ok (with_OPEN (dict_set s k (OPEN p2)) p2)
       else Ok (with_INCONS (dict_set s 0%nat (INCONS p2)) p2)
  else Ok p2.

(** [for sn in ...: self.update_state(sn)]. *)
Fixpoint update_states (xs : list node) (p : planner) : result planner :=
  match xs with
  | [] => Ok p
  | x :: xs' => p' <- update_state x p ;; update_states xs' p'
  end.

(** The termination test of the main loop. *)
Definition stop_test (v : prio) (p : planner) : result bool :=
  ks <- key p (s_start p) ;;
  if negb (key_lt v ks)
  then rs <- lookup (s_start p) (rhs p) ;;
       gs <- lookup (s_start p) (g p) ;;
       Ok (num_eqb rs gs)
  else Ok false.

(** [self.OPEN.pop(s)] where [s] may be [None]. *)
Definition pop_open (s : option node) (p : planner) : result (node * planner) :=
  match s with
  | None => Raise (KeyError "None")
  | Some s =>
      if dict_mem s (OPEN p) then Ok (s, with_OPEN (dict_pop s (OPEN p)) p)
      else Raise (KeyError s)
  end.

(** The body of the main loop once the termination test has failed. *)
Definition expand (s : option node) (p : planner) : result planner :=
  sp <- pop_open s p ;;
  let '(s, p1) := sp in
  let p2 := with_visited (set_add s (visited p1)) p1 in
  gs <- lookup s (g p2) ;;
  rs <- lookup s (rhs p2) ;;
  if num_ltb rs gs
  then
    let p3 := with_g (dict_set s rs (g p2)) p2 in
    let p4 := with_CLOSED (set_add s (CLOSED p3)) p3 in
    xs <- get_neighbor p4 s ;;
    update_states xs p4
  else
    let p3 := with_g (dict_set s Inf (g p2)) p2 in
    xs <- get_neighbor p3 s ;;
    p4 <- update_states xs p3 ;;
    update_state s p4.

(** The [while True] loop of [compute_or_improve_path]. *)
Fixpoint improve_loop (fuel : nat) (p : planner) : result planner :=
  match fuel with
  | O => NoFuel
  | S fuel' =>
      let '(s, v) := smallest_key p in
      stop <- stop_test v p ;;
      if stop then Ok p
      else p' <- expand s p ;; improve_loop fuel' p'
  end.

(** [for state in states: self.OPEN[state] = self.key(state)]. *)
Fixpoint rekey (states : list node) (p : planner) : result planner :=
  match states with
  | [] => Ok p
  | s :: rest =>
      k <- key p s ;;
      rekey rest (with_OPEN (dict_set s k (OPEN p)) p)
  end.

(** Moving INCONS into OPEN, refreshing every open key, clearing CLOSED:
    the block shared by [compute_or_improve_path] and [update_graph]. *)
Definition reprime (p : planner) : result planner :=
  p1 <- rekey (dict_keys (INCONS p)) p ;;
  let p2 := with_INCONS [] p1 in
  p3 <- rekey (dict_keys (OPEN p2)) p2 ;;
  Ok (with_CLOSED [] p3).

(** [compute_or_improve_path]. *)
Definition compute_or_improve_path (fuel : nat) (eps : Q) (p : planner)
  : result planner :=
  p1 <- (if initialize p
         then Ok (with_initialize false (with_epsilon eps p))
         else reprime (with_epsilon eps p)) ;;
  improve_loop fuel p1.

Definition not_found_msg (s_start s_goal : node) : string :=
  ("Either source " ++ s_start ++ " or target " ++ s_goal ++ " is not in G")%string.

(** The planner as [__init__] leaves it just before its call of
    [compute_or_improve_path]. *)
Definition init_tables (s_start s_goal : node) (G : graph)
    (heursistic : node -> node -> Q) (weight : string) (initial_epsilon : Q)
  : planner :=
  let g0 := map (fun s => (s, Inf)) (dict_keys G) in
  mkPlanner s_start s_goal heursistic weight G
    g0 (dict_set s_goal (Fin 0) g0) [] initial_epsilon [] [] [] true.

(** [ADA_star.__init__]. *)
Definition ADA_star (fuel : nat) (s_start s_goal : node) (G : graph)
    (heursistic : node -> node -> Q) (weight : string) (initial_epsilon : Q)
  : result planner :=
  if negb (dict_mem s_start G) || negb (dict_mem s_goal G)
  then Raise (NodeNotFound (not_found_msg s_start s_goal))
  else
    let p0 := init_tables s_start s_goal G heursistic weight initial_epsilon in
    k <- key p0 s_goal ;;
    let p1 := with_OPEN (dict_set s_goal k (OPEN p0)) p0 in
    compute_or_improve_path fuel (epsilon p1) p1.

Definition default_weight : string := "weight".
Definition default_epsilon : Q := 1000.

(** [min(neighbours, key=lambda x: self.g[x] + self.cost(s, x))]: the first
    neighbour whose value is smallest. *)
Definition path_value (p : planner) (s x : node) : result num :=
  gx <- lookup x (g p) ;;
  c <- cost p s x ;;
  Ok (num_add gx c).

Fixpoint min_from (p : planner) (s : node) (xs : list node)
    (best : node) (bv : num) : result node :=
  match xs with
  | [] => Ok best
  | x :: xs' =>
      v <- path_value p s x ;;
      if num_ltb v bv then min_from p s xs' x v else min_from p s xs' best bv
  end.

Definition min_neighbour (p : planner) (s : node) (xs : list node) : result node :=
  match xs with
  | [] => Raise ValueError
  | x :: xs' => v <- path_value p s x ;; min_from p s xs' x v
  end.

(** The loop of [extract_path]. *)
Fixpoint extract_loop (fuel : nat) (p : planner) (s : node) (path : list node)
  : result (list node) :=
  match fuel with
  | O => NoFuel
  | S fuel' =>
      neighbours <- get_neighbor p s ;;
      s' <- min_neighbour p s neighbours ;;
      let path' := path ++ [s'] in
      if String.eqb s' (s_goal p) then Ok path'
      else extract_loop fuel' p s' path'
  end.

(** [extract_path]. *)
Definition extract_path (fuel : nat) (p : planner) : result (list node) :=
  extract_loop fuel p (s_start p) [s_start p].

(** [self.G[a][b][self.weight] = w]. *)
Definition set_weight (a b : node) (w : num) (p : planner) : result planner :=
  adj <- lookup a (G p) ;;
  at_ <- lookup b adj ;;
  Ok (with_G (dict_set a (dict_set b (dict_set (weight p) w at_) adj) (G p)) p).

Definition change := (node * node * num)%type.

Fixpoint apply_changes (changes : list change) (p : planner) : result planner :=
  match changes with
  | [] => Ok p
  | (a, b, w) :: rest =>
      p1 <- set_weight a b w p ;;
      p2 <- set_weight b a w p1 ;;
      p3 <- update_state a p2 ;;
      p4 <- update_state b p3 ;;
      apply_changes rest p4
  end.

(** [update_graph]. *)
Definition update_graph (changes : list change) (p : planner) : result planner :=
  p1 <- apply_changes changes p ;;
  reprime p1.

(** Total weight of a node sequence in the planner's graph (the
    [nx.path_weight] of the examples). *)
Fixpoint path_weight (p : planner) (path : list node) : result num :=
  match path with
  | u :: ((v :: _) as rest) =>
      c <- cost p u v ;;
      w <- path_weight p rest ;;
      Ok (num_add c w)
  | _ => Ok (Fin 0)
  end.

(** ** The selection that the comment in [smallest_key] describes

    The definitions of this section do not embed code: they follow the words
    of the comment ("the one with the lowest first element as priority, if
    the first elements are equal, the one with the lowest second element is
    chosen") and run the same main loop with that selection, for comparison
    with the code. *)

Definition lex_smallest_step (acc : option node * prio) (kv : node * prio)
  : option node * prio :=
  match fst acc with
  | None => (Some (fst kv), snd kv)
  | Some _ => if key_lt (snd kv) (snd acc) then (Some (fst kv), snd kv) else acc
  end.

Definition lex_smallest_key (p : planner) : option node * prio :=
  fold_left lex_smallest_step (OPEN p) (None, (Inf, Inf)).

Fixpoint lex_improve_loop (fuel : nat) (p : planner) : result planner :=
  match fuel with
  | O => NoFuel
  | S fuel' =>
      let '(s, v) := lex_smallest_key p in
      stop <- stop_test v p ;;
      if stop then Ok p
      else p' <- expand s p ;; lex_improve_loop fuel' p'
  end.

Definition lex_compute_or_improve_path (fuel : nat) (eps : Q) (p : planner)
  : result planner :=
  p1 <- (if initialize p
         then Ok (with_initialize false (with_epsilon eps p))
         else reprime (with_epsilon eps p)) ;;
  lex_improve_loop fuel p1.

Definition lex_ADA_star (fuel : nat) (s_start s_goal : node) (G : graph)
    (heursistic : node -> node -> Q) (weight : string) (initial_epsilon : Q)
  : result planner :=
  if negb (dict_mem s_start G) || negb (dict_mem s_goal G)
  then Raise (NodeNotFound (not_found_msg s_start s_goal))
  else
    let p0 := init_tables s_start s_goal G heursistic weight initial_epsilon in
    k <- key p0 s_goal ;;
    let p1 := with_OPEN (dict_set s_goal k (OPEN p0)) p0 in
    lex_compute_or_improve_path fuel (epsilon p1) p1.

(** ** Properties of inputs *)

(** [v] is a neighbour of [u]: [v in G[u]]. *)
Definition edge_in (G : graph) (u v : node) : Prop :=
  exists adj, dict_get u G = Some adj /\ dict_mem v adj = true.

(** [w] can be reached from [u] by walking along neighbours. *)
Inductive connected (G : graph) (u : node) : node -> Prop :=
| connected_refl : connected G u u
| connected_step (v w : node) :
    connected G u v -> edge_in G v w -> connected G u w.

(** Every neighbour is a node of the graph and every edge carries the
    weight attribute. *)
Definition graph_ok (wt : string) (G : graph) : bool :=
  forallb (fun ua : node * dict attrs =>
    forallb (fun va : node * attrs =>
      dict_mem (fst va) G && dict_mem wt (snd va)) (snd ua)) G.

Definition edges (G : graph) : list (node * node * attrs) :=
  flat_map (fun ua : node * dict attrs =>
    map (fun va : node * attrs => (fst ua, fst va, snd va)) (snd ua)) G.

Definition nonneg_weights (wt : string) (G : graph) : bool :=
  forallb (fun e : node * node * attrs =>
    match dict_get wt (snd e) with
    | Some w => num_leb (Fin 0) w
    | None => false
    end) (edges G).

(** [h(start, .)] is non-negative, zero at the start, and along every edge
    [(u, v)] of the adjacency structure (an undirected edge is listed in both
    directions) [h(start, v) <= h(start, u) + weight(u, v)] (consistency);
    such a heuristic never overestimates the distance from the start. *)
Definition consistent_heuristic (h : node -> node -> Q) (start : node)
    (wt : string) (G : graph) : bool :=
  Qeq_bool (h start start) 0 &&
  forallb (fun e : node * node * attrs =>
    let '(u, v, a) := e in
    Qle_bool 0 (h start v) &&
    match dict_get wt a with
    | Some w => num_leb (Fin (h start v)) (num_add (Fin (h start u)) w)
    | None => false
    end) (edges G).

(** [sub] occurs in [s]. *)
Definition occurs_in (sub s : string) : Prop :=
  exists pre post : string, s = (pre ++ sub ++ post)%string.

(** Planner states a caller can hold: the result of the constructor, and the
    results of [compute_or_improve_path] and [update_graph] on such states. *)
Inductive produced : planner -> Prop :=
| produced_init fuel s_start s_goal G h wt eps p :
    ADA_star fuel s_start s_goal G h wt eps = Ok p -> produced p
| produced_improve fuel eps p p' :
    produced p -> compute_or_improve_path fuel eps p = Ok p' -> produced p'
| produced_update changes p p' :
    produced p -> update_graph changes p = Ok p' -> produced p'.

(** What [update_state s] may do to the [rhs] table of [p]: entries other
    than [s] are kept, the goal's entry is never recomputed, and any other
    state gets the minimum over its neighbours (so [+inf] when every
    neighbour has an infinite [g]). *)
Definition rhs_step (s : node) (p : planner) (r : dict num) : Prop :=
  (forall t, t <> s -> dict_get t r = dict_get t (rhs p)) /\
  (s = s_goal p -> r = rhs p) /\
  (s <> s_goal p ->
   exists adj, dict_get s (G p) = Some adj /\
     ((forall x gx, In x (dict_keys adj) -> dict_get x (g p) = Some gx -> gx = Inf) ->
      dict_get s r = Some Inf)).

(** Fields that [update_state], [update_graph] and the re-priming step never
    write. *)
Definition same_frame (p p' : planner) : Prop :=
  g p' = g p /\ s_start p' = s_start p /\ s_goal p' = s_goal p /\
  heursistic p' = heursistic p /\ weight p' = weight p /\
  epsilon p' = epsilon p /\ visited p' = visited p /\
  initialize p' = initialize p.

(** The planner held by a successful result ([d] otherwise). *)
Definition planner_of (r : result planner) (d : planner) : planner :=
  match r with Ok p => p | _ => d end.

(** ** Invariants *)

(** OPEN and CLOSED are disjoint, and INCONS lies inside CLOSED. *)
Definition sets_inv (p : planner) : Prop :=
  (forall s, dict_mem s (OPEN p) = true -> set_mem s (CLOSED p) = false) /\
  (forall s, dict_mem s (INCONS p) = true -> set_mem s (CLOSED p) = true).

(** A closed state has a finite [g]; an open state has entries in both
    tables, not both infinite. *)
Definition tables_inv (p : planner) : Prop :=
  (forall s, set_mem s (CLOSED p) = true ->
     exists q, dict_get s (g p) = Some (Fin q)) /\
  (forall s, dict_mem s (OPEN p) = true ->
     exists gs rs, dict_get s (g p) = Some gs /\ dict_get s (rhs p) = Some rs /\
                   is_fin gs || is_fin rs = true).

(** Every node of the graph has an entry in [g] and in [rhs]; both endpoints
    are nodes. *)
Definition dom_inv (p : planner) : Prop :=
  (forall u, dict_mem u (G p) = true ->
     dict_mem u (g p) = true /\ dict_mem u (rhs p) = true) /\
  dict_mem (s_start p) (G p) = true /\ dict_mem (s_goal p) (G p) = true.

(** The key stored with an open state is its current key. *)
Definition keys_fresh (p : planner) : Prop :=
  forall s k, dict_get s (OPEN p) = Some k -> key p s = Ok k.

Definition Inv0 (p : planner) : Prop := sets_inv p /\ tables_inv p /\ dom_inv p.

Definition Inv (p : planner) : Prop := Inv0 p /\ keys_fresh p.

(** Planner states at the boundaries of the individual statements, outside
    the re-priming block: the state the constructor hands to its first call
    of [compute_or_improve_path], and what each statement of that function,
    of [update_state] and of [update_graph] makes of such a state.  The
    re-priming block counts as one statement here; the points inside it are
    [in_reprime], below. *)
Inductive in_flight : planner -> Prop :=
| in_flight_primed s t G0 h wt eps k :
    dict_mem s G0 = true -> dict_mem t G0 = true ->
    key (init_tables s t G0 h wt eps) t = Ok k ->
    in_flight (with_OPEN (dict_set t k []) (init_tables s t G0 h wt eps))
| in_flight_set_epsilon eps p :
    in_flight p -> in_flight (with_epsilon eps p)
| in_flight_started p :
    in_flight p -> in_flight (with_initialize false p)
| in_flight_reprime eps p p' :
    in_flight p -> reprime (with_epsilon eps p) = Ok p' -> in_flight p'
| in_flight_open_pop s p :
    in_flight p -> in_flight (with_OPEN (dict_pop s (OPEN p)) p)
| in_flight_visit s p :
    in_flight p -> in_flight (with_visited (set_add s (visited p)) p)
| in_flight_set_g s v p :
    in_flight p -> in_flight (with_g (dict_set s v (g p)) p)
| in_flight_close s p :
    in_flight p -> dict_mem s (OPEN p) = false ->
    in_flight (with_CLOSED (set_add s (CLOSED p)) p)
| in_flight_set_rhs s v p :
    in_flight p -> in_flight (with_rhs (dict_set s v (rhs p)) p)
| in_flight_update_state s p p' :
    in_flight p -> update_state s p = Ok p' -> in_flight p'
| in_flight_set_weight a b w p p' :
    in_flight p -> set_weight a b w p = Ok p' -> in_flight p'.

(** [compute_or_improve_path eps] has just returned [p]: from the constructor
    (which calls it with the initial epsilon) or from a later call. *)
Definition returned_from (eps : Q) (p : planner) : Prop :=
  (exists fuel s t G0 h wt, ADA_star fuel s t G0 h wt eps = Ok p) \/
  (exists fuel p0, produced p0 /\ compute_or_improve_path fuel eps p0 = Ok p).

(** The number of expansions the main loop can still make: an unclosed state
    counts once, and once more while its [g] is finite. *)
Definition node_budget (closed : list node) (e : node * num) : nat :=
  if set_mem (fst e) closed then 0
  else if is_fin (snd e) then 2 else 1.

Definition budget (p : planner) : nat :=
  list_sum (map (node_budget (CLOSED p)) (g p)).

(** Every open or deferred state is a node of the graph. *)
Definition nodes_inv (p : planner) : Prop :=
  forall s, dict_mem s (OPEN p) = true \/ dict_mem s (INCONS p) = true ->
            dict_mem s (G p) = true.

(** The invariants that hold of every state a caller can hold. *)
Definition Inv_nodes (p : planner) : Prop := Inv p /\ nodes_inv p.

(** The propositional reading of [graph_ok]. *)
Definition wf_graph (wt : string) (G0 : graph) : Prop :=
  forall u adj v a,
    dict_get u G0 = Some adj -> dict_get v adj = Some a ->
    dict_mem v G0 = true /\ dict_mem wt a = true.

(** [G0[u][v][wt]] is a finite number: an edge of finite weight. *)
Definition finite_edge (wt : string) (G0 : graph) (u v : node) : Prop :=
  exists adj a c,
    dict_get u G0 = Some adj /\ dict_get v adj = Some a /\
    dict_get wt a = Some (Fin c).

(** [w] can be reached from [u] along edges of finite weight. *)
Inductive reaches (wt : string) (G0 : graph) (u : node) : node -> Prop :=
| reaches_refl : reaches wt G0 u u
| reaches_step (v w : node) :
    reaches wt G0 u v -> finite_edge wt G0 v w -> reaches wt G0 u w.

(** No edge of finite weight leaves the set [F] of nodes: an edge from a node
    of [F] to a node outside, if there is one, has weight [+inf]. *)
Definition sealed (F : node -> Prop) (wt : string) (G0 : graph) : Prop :=
  forall u v, F u -> finite_edge wt G0 u v -> F v.

(** No change of the list puts a finite weight on an edge between [F] and
    its complement. *)
Definition keeps_sealed (F : node -> Prop) (changes : list change) : Prop :=
  forall a b w, In (a, b, w) changes -> w = Inf \/ (F a <-> F b).

(** The planner states a caller can hold while the set [F] has held the
    start, not the goal, and has been sealed ever since construction. *)
Inductive cut_off_since (F : node -> Prop) : planner -> Prop :=
| cut_off_init fuel s t G0 h wt eps p :
    F s -> ~ F t -> sealed F wt G0 ->
    ADA_star fuel s t G0 h wt eps = Ok p -> cut_off_since F p
| cut_off_improve fuel eps p p' :
    cut_off_since F p -> compute_or_improve_path fuel eps p = Ok p' ->
    cut_off_since F p'
| cut_off_update changes p p' :
    cut_off_since F p -> keeps_sealed F changes ->
    update_graph changes p = Ok p' -> cut_off_since F p'.

(** When [F] cuts the start off from the goal: every state of [F] has
    [g = rhs = +inf] and is neither open nor deferred. *)
Definition far_inv (F : node -> Prop) (p : planner) : Prop :=
  F (s_start p) /\ ~ F (s_goal p) /\ sealed F (weight p) (G p) /\
  forall u, F u ->
    (forall v, dict_get u (g p) = Some v -> v = Inf) /\
    (forall v, dict_get u (rhs p) = Some v -> v = Inf) /\
    dict_mem u (OPEN p) = false /\ dict_mem u (INCONS p) = false.

(** The states on which the main loop cannot fail when the start is cut off
    from the goal. *)
Definition far_ready (F : node -> Prop) (p : planner) : Prop :=
  Inv_nodes p /\ far_inv F p /\ wf_graph (weight p) (G p).

(** A set of nodes given by a list, and the test that it is sealed. *)
Definition in_list (l : list node) (u : node) : Prop := set_mem u l = true.

Definition sealedb (l : list node) (wt : string) (G0 : graph) : bool :=
  forallb (fun ua : node * dict attrs =>
    negb (set_mem (fst ua) l) ||
    forallb (fun va : node * attrs =>
      set_mem (fst va) l ||
      match dict_get wt (snd va) with
      | Some (Fin _) => false
      | _ => true
      end) (snd ua)) G0.

(** Every step of [path] has a cost. *)
Fixpoint priced (p : planner) (path : list node) : Prop :=
  match path with
  | u :: ((v :: _) as rest) => (exists c, cost p u v = Ok c) /\ priced p rest
  | _ => True
  end.

(** The attribute [k] of the edge [(u, v)], if the edge has it. *)
Definition attr_of (G0 : graph) (u v : node) (k : string) : option num :=
  match dict_get u G0 with
  | Some adj =>
      match dict_get v adj with
      | Some a => dict_get k a
      | None => None
      end
  | None => None
  end.

(** The change [c] names the edge [(u, v)], in either direction. *)
Definition touches (c : change) (u v : node) : bool :=
  let '(a, b, _) := c in
  (String.eqb u a && String.eqb v b) || (String.eqb u b && String.eqb v a).

(** The weight that the last change naming [(u, v)] carries, if any. *)
Fixpoint last_write (changes : list change) (u v : node) : option num :=
  match changes with
  | [] => None
  | c :: rest =>
      match last_write rest u v with
      | Some w => Some w
      | None => if touches c u v then Some (snd c) else None
      end
  end.

(** Planner states inside the re-priming block (the block shared by
    [compute_or_improve_path] and [update_graph]): after some iterations of
    its first loop, after [self.INCONS = dict()], and after some iterations
    of its second loop.  The block ends with [self.CLOSED = set()]. *)
Inductive in_reprime : planner -> Prop :=
| in_reprime_move eps p n p1 :
    in_flight p ->
    rekey (firstn n (dict_keys (INCONS p))) (with_epsilon eps p) = Ok p1 ->
    in_reprime p1
| in_reprime_clear eps p p1 :
    in_flight p ->
    rekey (dict_keys (INCONS p)) (with_epsilon eps p) = Ok p1 ->
    in_reprime (with_INCONS [] p1)
| in_reprime_rekey eps p p1 n p3 :
    in_flight p ->
    rekey (dict_keys (INCONS p)) (with_epsilon eps p) = Ok p1 ->
    rekey (firstn n (dict_keys (OPEN p1))) (with_INCONS [] p1) = Ok p3 ->
    in_reprime p3.

(** Two planners on graphs with the same nodes and edges (the weights may
    differ), the same endpoints and the same weight key. *)
Definition same_shape (p p' : planner) : Prop :=
  s_start p' = s_start p /\ s_goal p' = s_goal p /\ weight p' = weight p /\
  (forall u, dict_mem u (G p') = dict_mem u (G p)) /\
  (forall u v, edge_in (G p') u v <-> edge_in (G p) u v).

(** ** Concrete inputs *)

Definition wedge (v : node) (w : Q) : node * attrs := (v, [("weight", Fin w)]).

(** Three nodes; the goal ["T"] lists ["X"] before ["S"]. *)
Definition G_tie : graph :=
  [ ("S", [wedge "T" 4; wedge "X" 1]);
    ("X", [wedge "T" 2; wedge "S" 1]);
    ("T", [wedge "X" 2; wedge "S" 4]) ].

Definition h_tie (u v : node) : Q := if String.eqb v "X" then 1 else 0.

(** One edge without any attribute. *)
Definition G_plain : graph :=
  [ ("A", [("B", [])]); ("B", [("A", [])]) ].

Definition h_zero (u v : node) : Q := 0.

(** Four nodes, unit weights. *)
Definition G_bound : graph :=
  [ ("S", [wedge "A" 1]);
    ("B", [wedge "T" 1; wedge "A" 1]);
    ("T", [wedge "A" 1; wedge "B" 1]);
    ("A", [wedge "T" 1; wedge "S" 1; wedge "B" 1]) ].

Definition h_bound (u v : node) : Q :=
  if String.eqb v "T" then 1 else if String.eqb v "A" then 1 else 0.

Definition changes_bound : list change :=
  [ ("B", "T", Fin 4); ("T", "A", Fin 4) ].

Definition G_idem : graph :=
  [ ("T", [wedge "B" 1; wedge "A" 3]);
    ("B", [wedge "T" 1; wedge "S" 3; wedge "A" 1]);
    ("S", [wedge "B" 3; wedge "A" 1]);
    ("A", [wedge "T" 3; wedge "S" 1; wedge "B" 1]) ].

Definition h_idem (u v : node) : Q :=
  if String.eqb v "T" then 2 else if String.eqb v "B" then 1 else 0.

(** ["A"] and ["B"] are joined; the goal ["C"] is isolated. *)
Definition G_split : graph :=
  [ ("A", [wedge "B" 1]); ("B", [wedge "A" 1]); ("C", []) ].

(** The constructor on [G_tie] after the first iteration of its main loop
    (the goal ["T"] has been expanded). *)
Definition tie_after_first_expansion : result planner :=
  let p0 := init_tables "S" "T" G_tie h_tie "weight" 2 in
  k <- key p0 "T" ;;
  expand (Some "T")
    (with_initialize false (with_OPEN (dict_set "T" k (OPEN p0)) p0)).

(** Construction on [G_bound], two edge-weight increases, and a call of
    [compute_or_improve_path] with epsilon 1. *)
Definition bound_run : result planner :=
  p0 <- ADA_star 10 "S" "T" G_bound h_bound default_weight 3 ;;
  p1 <- update_graph changes_bound p0 ;;
  compute_or_improve_path 10 1 p1.

(** Construction on [G_idem] with epsilon 3. *)
Definition idem_run : result planner :=
  ADA_star 10 "S" "T" G_idem h_idem default_weight 3.

(** Construction on [G_split] from ["A"] towards the isolated ["C"]. *)
Definition split_run : result planner :=
  ADA_star 10 "A" "C" G_split h_zero default_weight 1.

Definition split_start : planner :=
  init_tables "A" "C" G_split h_zero default_weight 1.

(** The state the constructor hands to its first call of
    [compute_or_improve_path] on [G_split]. *)
Definition split_primed : planner :=
  with_OPEN (dict_set "C" (Fin (0 + 1 * 0), Fin 0) []) split_start.

(** The calls of [bound_run] with the selection of the comment. *)
Definition lex_bound_run : result planner :=
  p0 <- lex_ADA_star 10 "S" "T" G_bound h_bound default_weight 3 ;;
  p1 <- update_graph changes_bound p0 ;;
  lex_compute_or_improve_path 10 1 p1.

(** The planner that construction on [G_idem] returns. *)
Definition idem_planner : planner := planner_of idem_run split_start.

(** An edge of weight [+inf]. *)
Definition winf (v : node) : node * attrs := (v, [("weight", Inf)]).

(** A path [S - A - T] whose edge [A - T] has weight [+inf]. *)
Definition G_cut : graph :=
  [ ("S", [wedge "A" 1]);
    ("A", [winf "T"; wedge "S" 1]);
    ("T", [winf "A"]) ].

(** Construction on [G_cut], then a new finite weight on [S - A]. *)
Definition cut_run : result planner :=
  p0 <- ADA_star 10 "S" "T" G_cut h_zero default_weight 1 ;;
  update_graph [("S", "A", Fin 2)] p0.

Definition cut_planner : planner := planner_of cut_run split_start.

(** A path [S - A - B - T] with unit weights. *)
Definition G_line : graph :=
  [ ("A", [wedge "B" 1; wedge "S" 1]);
    ("S", [wedge "A" 1]);
    ("T", [wedge "B" 1]);
    ("B", [wedge "T" 1; wedge "A" 1]) ].

Definition h_line (u v : node) : Q := if String.eqb v "A" then 1 else 0.

(** Construction on [G_line], the edge [T - B] set to [+inf], and a call of
    [compute_or_improve_path]. *)
Definition line_run : result planner :=
  p0 <- ADA_star 10 "S" "T" G_line h_line default_weight 1 ;;
  p1 <- update_graph [("T", "B", Inf)] p0 ;;
  compute_or_improve_path 10 1 p1.

Definition line_planner : planner := planner_of line_run split_start.

(** The calls of [line_run] with the selection of the comment. *)
Definition lex_line_run : result planner :=
  p0 <- lex_ADA_star 10 "S" "T" G_line h_line default_weight 1 ;;
  p1 <- update_graph [("T", "B", Inf)] p0 ;;
  lex_compute_or_improve_path 10 1 p1.

(** A heuristic that is not zero at the start. *)
Definition h_unit (u v : node) : Q := 1.

(** The planner that construction on [G_idem] with [h_unit] returns. *)
Definition unit_planner : planner :=
  planner_of (ADA_star 10 "S" "T" G_idem h_unit default_weight 3) split_start.

(** [idem_planner] after the weight of [B - T] has been overwritten. *)
Definition idem_rewritten : planner :=
  planner_of (p1 <- set_weight "B" "T" (Fin 5) idem_planner ;;
              set_weight "T" "B" (Fin 5) p1) split_start.

(** [G_idem] with a further node ["D"] hanging off ["A"]. *)
Definition G_sets : graph :=
  [ ("T", [wedge "B" 1; wedge "A" 3]);
    ("S", [wedge "A" 1]);
    ("B", [wedge "T" 1; wedge "A" 1]);
    ("D", [wedge "A" 2]);
    ("A", [wedge "D" 2; wedge "T" 3; wedge "B" 1; wedge "S" 1]) ].

Definition h_sets (u v : node) : Q :=
  if String.eqb v "T" then 2
  else if String.eqb v "B" then 1
  else if String.eqb v "D" then 1 else 0.

(** The planner that construction on [G_sets] with epsilon 2 returns. *)
Definition sets_planner : planner :=
  planner_of (ADA_star 10 "S" "T" G_sets h_sets default_weight 2) split_start.

(** [sets_planner] inside the re-priming block of a further call, after the
    first loop of the block. *)
Definition sets_repriming : planner :=
  planner_of (rekey (firstn 1 (dict_keys (INCONS sets_planner)))
                (with_epsilon 2 sets_planner)) split_start.

(** [idem_planner] after [update_graph] has raised the weight of [B - T]. *)
Definition idem_updated : planner :=
  planner_of (update_graph [("B", "T", Fin 5)] idem_planner) split_start.
(** * Lemmas *)

(** ** The result monad *)

Lemma bind_ok {A B : Type} (m : result A) (k : A -> result B) (b : B) :
  bind m k = Ok b -> exists a, m = Ok a /\ k a = Ok b.
Proof.
  destruct m as [a| |]; simpl; intros H; try discriminate.
  exists a; split; [reflexivity | exact H].
Qed.

Lemma lookup_ok {V : Type} (k : string) (d : dict V) (v : V) :
  lookup k d = Ok v <-> dict_get k d = Some v.
Proof.
  unfold lookup; destruct (dict_get k d); split; intros H;
    try discriminate; inversion H; reflexivity.
Qed.

Ltac inv_bind H :=
  let a := fresh "a" in
  let E := fresh "E" in
  apply bind_ok in H; destruct H as (a & E & H).

(** ** Extended numbers *)

Lemma Qlt_bool_iff (x y : Q) : Qlt_bool x y = true <-> x < y.
Proof.
  unfold Qlt_bool. rewrite negb_true_iff. split; intros H.
  - apply Qnot_le_lt. intros Hle. apply Qle_bool_iff in Hle. congruence.
  - destruct (Qle_bool y x) eqn:E; [| reflexivity].
    apply Qle_bool_iff in E. exfalso. apply (Qlt_not_le _ _ H E).
Qed.

Lemma num_ltb_lt (a b : num) : num_ltb a b = true <-> num_lt a b.
Proof.
  destruct a, b; simpl; try apply Qlt_bool_iff; split; intros H;
    try discriminate; try contradiction; auto.
Qed.

Lemma num_eqb_eq (a b : num) : num_eqb a b = true <-> num_eq a b.
Proof.
  destruct a, b; simpl; try apply Qeq_bool_iff; split; intros H;
    try discriminate; try contradiction; auto.
Qed.

Lemma num_ltb_fin (a b : num) : num_ltb a b = true -> is_fin a = true.
Proof. destruct a, b; simpl; intros H; try discriminate; reflexivity. Qed.

Lemma num_ltb_eqb (a b : num) : num_ltb a b = true -> num_eqb a b = false.
Proof.
  intros H. destruct (num_eqb a b) eqn:E; [| reflexivity].
  apply num_ltb_lt in H. apply num_eqb_eq in E.
  destruct a, b; simpl in *; try contradiction.
  exfalso. rewrite E in H. exact (Qlt_irrefl _ H).
Qed.

Lemma num_eqb_sym (a b : num) : num_eqb a b = num_eqb b a.
Proof.
  destruct (num_eqb a b) eqn:E1, (num_eqb b a) eqn:E2; try reflexivity.
  - apply num_eqb_eq in E1.
    assert (num_eqb b a = true); [| congruence].
    apply num_eqb_eq. destruct a, b; simpl in *; auto. symmetry; exact E1.
  - apply num_eqb_eq in E2.
    assert (num_eqb a b = true); [| congruence].
    apply num_eqb_eq. destruct a, b; simpl in *; auto. symmetry; exact E2.
Qed.

(** ** Dictionaries and sets *)

Section DictFacts.
Context {V : Type}.
Implicit Types (d : dict V) (k : string) (v : V).

Lemma dict_get_set_eq k v d : dict_get k (dict_set k v d) = Some v.
Proof.
  induction d as [|[k' v'] d IH]; simpl.
  - rewrite String.eqb_refl. reflexivity.
  - destruct (String.eqb k k') eqn:E; simpl.
    + rewrite String.eqb_refl. reflexivity.
    + rewrite E. exact IH.
Qed.

Lemma dict_get_set_neq k k' v d :
  k' <> k -> dict_get k' (dict_set k v d) = dict_get k' d.
Proof.
  intros Hne. induction d as [|[k0 v0] d IH]; simpl.
  - apply String.eqb_neq in Hne. rewrite Hne. reflexivity.
  - destruct (String.eqb k k0) eqn:E; simpl.
    + apply String.eqb_eq in E. subst k0.
      apply String.eqb_neq in Hne. rewrite Hne. reflexivity.
    + destruct (String.eqb k' k0); [reflexivity | exact IH].
Qed.

Lemma dict_mem_set k k' v d :
  dict_mem k' (dict_set k v d) = String.eqb k' k || dict_mem k' d.
Proof.
  unfold dict_mem. destruct (String.eqb k' k) eqn:E.
  - apply String.eqb_eq in E. subst k'. rewrite dict_get_set_eq. reflexivity.
  - apply String.eqb_neq in E. rewrite (dict_get_set_neq _ _ _ _ E). reflexivity.
Qed.

Lemma dict_get_pop_eq k d : dict_get k (dict_pop k d) = None.
Proof.
  induction d as [|[k' v'] d IH]; simpl; [reflexivity |].
  destruct (String.eqb k k') eqn:E; simpl; [exact IH |].
  rewrite E. exact IH.
Qed.

Lemma dict_get_pop_neq k k' d :
  k' <> k -> dict_get k' (dict_pop k d) = dict_get k' d.
Proof.
  intros Hne. induction d as [|[k0 v0] d IH]; simpl; [reflexivity |].
  destruct (String.eqb k k0) eqn:E; simpl.
  - apply String.eqb_eq in E. subst k0.
    apply String.eqb_neq in Hne. rewrite Hne. exact IH.
  - destruct (String.eqb k' k0); [reflexivity | exact IH].
Qed.

Lemma dict_mem_pop k k' d :
  dict_mem k' (dict_pop k d) = negb (String.eqb k' k) && dict_mem k' d.
Proof.
  unfold dict_mem. destruct (String.eqb k' k) eqn:E; simpl.
  - apply String.eqb_eq in E. subst k'. rewrite dict_get_pop_eq. reflexivity.
  - apply String.eqb_neq in E. rewrite (dict_get_pop_neq _ _ _ E). reflexivity.
Qed.

Lemma dict_pop_absent k d : dict_mem k d = false -> dict_pop k d = d.
Proof.
  unfold dict_mem. induction d as [|[k' v'] d IH]; simpl; [reflexivity |].
  destruct (String.eqb k k'); [discriminate |].
  intros H. rewrite (IH H). reflexivity.
Qed.

Lemma dict_mem_keys k d : dict_mem k d = true <-> In k (dict_keys d).
Proof.
  unfold dict_mem, dict_keys. induction d as [|[k' v'] d IH]; simpl.
  - split; [discriminate | contradiction].
  - destruct (String.eqb k k') eqn:E.
    + apply String.eqb_eq in E. subst. split; auto.
    + apply String.eqb_neq in E. rewrite IH. split; [auto |].
      intros [H | H]; [congruence | exact H].
Qed.

Lemma dict_get_in k v d : dict_get k d = Some v -> In (k, v) d.
Proof.
  induction d as [|[k' v'] d IH]; simpl; [discriminate |].
  destruct (String.eqb k k') eqn:E.
  - apply String.eqb_eq in E. subst. intros H. inversion H. left. reflexivity.
  - intros H. right. exact (IH H).
Qed.

Lemma dict_mem_get k d : dict_mem k d = true -> exists v, dict_get k d = Some v.
Proof.
  unfold dict_mem. destruct (dict_get k d) as [v|]; [eauto | discriminate].
Qed.

Lemma dict_get_mem k v d : dict_get k d = Some v -> dict_mem k d = true.
Proof. unfold dict_mem. intros ->. reflexivity. Qed.

End DictFacts.

Lemma set_mem_add (x y : node) (s : list node) :
  set_mem y (set_add x s) = String.eqb y x || set_mem y s.
Proof.
  unfold set_add. destruct (set_mem x s) eqn:E.
  - destruct (String.eqb y x) eqn:Eyx; [| reflexivity].
    apply String.eqb_eq in Eyx. subst. rewrite E. reflexivity.
  - unfold set_mem. rewrite existsb_app. simpl.
    rewrite orb_false_r. apply orb_comm.
Qed.

(** ** What each operation does to the planner *)

Lemma with_rhs_same (p : planner) : with_rhs (rhs p) p = p.
Proof. destruct p; reflexivity. Qed.

Lemma with_OPEN_same (p : planner) : with_OPEN (OPEN p) p = p.
Proof. destruct p; reflexivity. Qed.

Lemma update_rhs_spec (s : node) (xs : list node) (p p' : planner) :
  update_rhs s xs p = Ok p' ->
  exists r, p' = with_rhs r p /\
    (forall t, t <> s -> dict_get t r = dict_get t (rhs p)) /\
    (dict_get s (rhs p) = Some Inf ->
     (forall x gx, In x xs -> dict_get x (g p) = Some gx -> gx = Inf) ->
     dict_get s r = Some Inf) /\
    (dict_mem s (rhs p) = true -> dict_mem s r = true).
Proof.
  revert p. induction xs as [|x xs IH]; intros p H; simpl in H.
  - inversion H; subst. exists (rhs p'). rewrite with_rhs_same. auto.
  - inv_bind H. rename a into r0. apply lookup_ok in E.
    inv_bind H. rename a into gx. apply lookup_ok in E0.
    inv_bind H. rename a into c.
    apply IH in H. destruct H as (r & Hp' & Hother & Hinf & Hmem).
    simpl in *. exists r. split; [exact Hp' |]. split; [| split].
    + intros t Ht. rewrite (Hother t Ht). apply dict_get_set_neq. exact Ht.
    + intros Hs Hall. apply Hinf.
      * assert (gx = Inf) by (apply (Hall x); auto). subst gx.
        assert (r0 = Inf) by congruence. subst r0.
        simpl. apply dict_get_set_eq.
      * intros y gy Hy. apply Hall. right. exact Hy.
    + intros _. apply Hmem. rewrite dict_mem_set, String.eqb_refl. reflexivity.
Qed.

Lemma update_state_spec (s : node) (p p' : planner) :
  update_state s p = Ok p' ->
  exists r gs rs,
    rhs_step s p r /\ dict_get s (g p) = Some gs /\ dict_get s r = Some rs /\
    ((num_eqb gs rs = true /\
      p' = with_OPEN (dict_pop s (OPEN p)) (with_rhs r p)) \/
     (num_eqb gs rs = false /\ set_mem s (CLOSED p) = false /\
      exists k, key (with_rhs r p) s = Ok k /\
        p' = with_OPEN (dict_set s k (dict_pop s (OPEN p))) (with_rhs r p)) \/
     (num_eqb gs rs = false /\ set_mem s (CLOSED p) = true /\
      p' = with_INCONS (dict_set s 0%nat (INCONS p))
             (with_OPEN (dict_pop s (OPEN p)) (with_rhs r p)))).
Proof.
  unfold update_state. intros H. inv_bind H. rename a into p1.
  assert (Hr : exists r, p1 = with_rhs r p /\ rhs_step s p r).
  { destruct (String.eqb s (s_goal p)) eqn:Eg.
    - inversion E; subst. exists (rhs p1). rewrite with_rhs_same.
      apply String.eqb_eq in Eg.
      split; [reflexivity |]. split; [auto |]. split; [auto |].
      intros Hne. contradiction.
    - apply String.eqb_neq in Eg.
      inv_bind E. rename a into xs. unfold get_neighbor in E0. simpl in E0.
      inv_bind E0. rename a into adj. apply lookup_ok in E1.
      inversion E0; subst xs. clear E0.
      apply update_rhs_spec in E. destruct E as (r & Hp1 & Hother & Hinf & _).
      simpl in *. exists r. split; [exact Hp1 |]. split; [| split].
      + intros t Ht. rewrite (Hother t Ht). apply dict_get_set_neq. exact Ht.
      + intros Hs. contradiction.
      + intros _. exists adj. split; [exact E1 |].
        intros Hall. apply Hinf; [apply dict_get_set_eq | exact Hall]. }
  destruct Hr as (r & Hp1 & Hstep). subst p1. clear E.
  set (p2 := with_OPEN (dict_pop s (OPEN p)) (with_rhs r p)).
  assert (Hp2 : (if dict_mem s (OPEN (with_rhs r p))
                 then with_OPEN (dict_pop s (OPEN (with_rhs r p))) (with_rhs r p)
                 else with_rhs r p) = p2).
  { simpl. destruct (dict_mem s (OPEN p)) eqn:Em; [reflexivity |].
    unfold p2. rewrite (dict_pop_absent _ _ Em). reflexivity. }
  rewrite Hp2 in H. clear Hp2.
  inv_bind H. rename a into gs. apply lookup_ok in E.
  inv_bind H. rename a into rs. apply lookup_ok in E0.
  simpl in E, E0. exists r, gs, rs.
  split; [exact Hstep |]. split; [exact E |]. split; [exact E0 |].
  destruct (num_eqb gs rs) eqn:Eeq; simpl in H.
  - left. inversion H. auto.
  - destruct (set_mem s (CLOSED p)) eqn:Ec; simpl in H.
    + right. right. inversion H. auto.
    + right. left. inv_bind H. rename a into k. inversion H.
      split; [reflexivity |]. split; [reflexivity |].
      exists k. split; [exact E1 | reflexivity].
Qed.

Lemma key_with_OPEN (o : dict prio) (p : planner) (s : node) :
  key (with_OPEN o p) s = key p s.
Proof. reflexivity. Qed.

Lemma dict_set_same {V : Type} (k : string) (v : V) (d : dict V) :
  dict_get k d = Some v -> dict_set k v d = d.
Proof.
  induction d as [|[k' v'] d IH]; simpl; [discriminate |].
  destruct (String.eqb k k') eqn:E.
  - apply String.eqb_eq in E. subst. intros H. inversion H. reflexivity.
  - intros H. rewrite (IH H). reflexivity.
Qed.

Lemma rekey_spec (xs : list node) (p p' : planner) :
  rekey xs p = Ok p' ->
  exists o, p' = with_OPEN o p /\
    (forall t, In t xs -> exists k, key p t = Ok k /\ dict_get t o = Some k) /\
    (forall t, ~ In t xs -> dict_get t o = dict_get t (OPEN p)).
Proof.
  revert p. induction xs as [|x xs IH]; intros p H; simpl in H.
  - inversion H; subst. exists (OPEN p'). rewrite with_OPEN_same.
    split; [reflexivity |]. split; [intros t [] | auto].
  - inv_bind H. rename a into k.
    apply IH in H. destruct H as (o & Hp' & Hin & Hout).
    simpl in *. exists o. split; [exact Hp' |]. split.
    + intros t Ht. destruct (in_dec string_dec t xs) as [Hi | Hni].
      * apply Hin. exact Hi.
      * destruct Ht as [Ht | Ht]; [subst t | contradiction].
        exists k. split; [exact E |].
        rewrite (Hout x Hni). apply dict_get_set_eq.
    + intros t Ht. rewrite Hout by tauto.
      apply dict_get_set_neq. intros Heq. apply Ht. left. symmetry. exact Heq.
Qed.

Lemma reprime_spec (p p' : planner) :
  reprime p = Ok p' ->
  exists o, p' = with_CLOSED [] (with_INCONS [] (with_OPEN o p)) /\
    (forall t, dict_mem t o = true <->
               dict_mem t (OPEN p) = true \/ dict_mem t (INCONS p) = true) /\
    (forall t k, dict_get t o = Some k -> key p t = Ok k).
Proof.
  unfold reprime. intros H. inv_bind H. rename a into p1.
  apply rekey_spec in E. destruct E as (o1 & Hp1 & Hin1 & Hout1). subst p1.
  inv_bind H. rename a into p3. simpl in E.
  apply rekey_spec in E. destruct E as (o & Hp3 & Hin & Hout). subst p3.
  simpl in *. inversion H; subst p'. clear H.
  assert (Hmem1 : forall t, dict_mem t o1 = true <->
            dict_mem t (OPEN p) = true \/ dict_mem t (INCONS p) = true).
  { intros t. destruct (in_dec string_dec t (dict_keys (INCONS p))) as [Hi | Hni].
    - destruct (Hin1 t Hi) as (k & _ & Hk).
      split; [intros _ | intros _; exact (dict_get_mem _ _ _ Hk)].
      right. apply dict_mem_keys. exact Hi.
    - unfold dict_mem at 1. rewrite (Hout1 t Hni). fold (dict_mem t (OPEN p)).
      split; [auto |]. intros [H | H]; [exact H |].
      apply dict_mem_keys in H. contradiction. }
  exists o. split; [reflexivity |]. split.
  - intros t. rewrite <- Hmem1.
    destruct (in_dec string_dec t (dict_keys o1)) as [Hi | Hni].
    + destruct (Hin t Hi) as (k & _ & Hk).
      split; intros _; [apply dict_mem_keys; exact Hi | exact (dict_get_mem _ _ _ Hk)].
    + unfold dict_mem. rewrite (Hout t Hni). reflexivity.
  - intros t k Hk.
    destruct (in_dec string_dec t (dict_keys o1)) as [Hi | Hni].
    + destruct (Hin t Hi) as (k' & Hkey & Hk').
      rewrite Hk in Hk'. inversion Hk'. subst k'. exact Hkey.
    + rewrite (Hout t Hni) in Hk. apply dict_get_mem in Hk.
      apply dict_mem_keys in Hk. contradiction.
Qed.

Lemma set_weight_spec (a b : node) (w : num) (p p' : planner) :
  set_weight a b w p = Ok p' ->
  exists adj at_,
    dict_get a (G p) = Some adj /\ dict_get b adj = Some at_ /\
    p' = with_G (dict_set a (dict_set b (dict_set (weight p) w at_) adj) (G p)) p.
Proof.
  unfold set_weight. intros H.
  inv_bind H. rename a0 into adj. apply lookup_ok in E.
  inv_bind H. rename a0 into at_. apply lookup_ok in E0.
  inversion H. exists adj, at_. auto.
Qed.

Lemma same_frame_refl (p : planner) : same_frame p p.
Proof. unfold same_frame. tauto. Qed.

Lemma same_frame_trans (p q r : planner) :
  same_frame p q -> same_frame q r -> same_frame p r.
Proof. unfold same_frame. intuition congruence. Qed.

Lemma update_state_frame (s : node) (p p' : planner) :
  update_state s p = Ok p' ->
  same_frame p p' /\ G p' = G p /\ CLOSED p' = CLOSED p.
Proof.
  intros H. apply update_state_spec in H.
  destruct H as (r & gs & rs & _ & _ & _ & [(_ & ->) | [(_ & _ & k & _ & ->) | (_ & _ & ->)]]);
    unfold same_frame; simpl; tauto.
Qed.

Lemma reprime_frame (p p' : planner) :
  reprime p = Ok p' -> same_frame p p' /\ G p' = G p /\ rhs p' = rhs p.
Proof.
  intros H. apply reprime_spec in H. destruct H as (o & -> & _).
  unfold same_frame; simpl; tauto.
Qed.

Lemma set_weight_frame (a b : node) (w : num) (p p' : planner) :
  set_weight a b w p = Ok p' -> same_frame p p'.
Proof.
  intros H. apply set_weight_spec in H. destruct H as (adj & at_ & _ & _ & ->).
  unfold same_frame; simpl; tauto.
Qed.

Lemma apply_changes_frame (changes : list change) (p p' : planner) :
  apply_changes changes p = Ok p' -> same_frame p p'.
Proof.
  revert p. induction changes as [|[[a b] w] rest IH]; intros p H; simpl in H.
  - inversion H. apply same_frame_refl.
  - inv_bind H. rename a0 into p1. inv_bind H. rename a0 into p2.
    inv_bind H. rename a0 into p3. inv_bind H. rename a0 into p4.
    apply set_weight_frame in E, E0.
    apply update_state_frame in E1, E2.
    apply IH in H. destruct E1 as (E1 & _). destruct E2 as (E2 & _).
    apply (same_frame_trans _ _ _ E).
    apply (same_frame_trans _ _ _ E0).
    apply (same_frame_trans _ _ _ E1).
    apply (same_frame_trans _ _ _ E2). exact H.
Qed.

Lemma update_graph_frame (changes : list change) (p p' : planner) :
  update_graph changes p = Ok p' -> same_frame p p'.
Proof.
  unfold update_graph. intros H. inv_bind H.
  apply apply_changes_frame in E. apply reprime_frame in H.
  eapply same_frame_trans; [exact E | apply H].
Qed.

(** ** Strings *)

Lemma string_app_assoc (a b c : string) :
  ((a ++ b) ++ c = a ++ (b ++ c))%string.
Proof. induction a as [|ch a IH]; simpl; [reflexivity |]. rewrite IH. reflexivity. Qed.

(** ** Invariants of the individual steps *)

Lemma key_ext (p p' : planner) (t : node) :
  dict_get t (g p') = dict_get t (g p) ->
  dict_get t (rhs p') = dict_get t (rhs p) ->
  epsilon p' = epsilon p -> heursistic p' = heursistic p ->
  s_start p' = s_start p ->
  key p' t = key p t.
Proof.
  intros Hg Hr He Hh Hs. unfold key, lookup. rewrite Hg, Hr, He, Hh, Hs.
  reflexivity.
Qed.

Lemma key_ok_inv (p : planner) (s : node) (k : prio) :
  key p s = Ok k ->
  exists gs rs, dict_get s (g p) = Some gs /\ dict_get s (rhs p) = Some rs.
Proof.
  unfold key. intros H. inv_bind H. inv_bind H.
  apply lookup_ok in E, E0. eauto.
Qed.

Lemma num_neq_live (gs rs : num) :
  num_eqb gs rs = false -> is_fin gs || is_fin rs = true.
Proof. destruct gs, rs; simpl; intros H; try reflexivity. discriminate. Qed.

Lemma update_state_sets (s : node) (p p' : planner) :
  sets_inv p -> update_state s p = Ok p' -> sets_inv p'.
Proof.
  intros [Hoc Hic] H. apply update_state_spec in H.
  destruct H as (r & gs & rs & _ & _ & _ & Hcase).
  destruct Hcase as [(_ & ->) | [(_ & Hc & k & _ & ->) | (_ & Hc & ->)]];
    split; simpl; intros t Ht.
  - rewrite dict_mem_pop in Ht. apply andb_true_iff in Ht. apply Hoc, Ht.
  - apply Hic, Ht.
  - rewrite dict_mem_set, dict_mem_pop in Ht.
    destruct (String.eqb t s) eqn:E.
    + apply String.eqb_eq in E. subst. exact Hc.
    + simpl in Ht. apply Hoc, Ht.
  - apply Hic, Ht.
  - rewrite dict_mem_pop in Ht. apply andb_true_iff in Ht. apply Hoc, Ht.
  - rewrite dict_mem_set in Ht.
    destruct (String.eqb t s) eqn:E.
    + apply String.eqb_eq in E. subst. exact Hc.
    + simpl in Ht. apply Hic, Ht.
Qed.

Lemma update_state_tables (s : node) (p p' : planner) :
  tables_inv p -> update_state s p = Ok p' -> tables_inv p'.
Proof.
  intros [Hcf Hol] H. apply update_state_spec in H.
  destruct H as (r & gs & rs & (Hother & _) & Hg & Hr & Hcase).
  assert (Hold : forall t, t <> s -> dict_mem t (OPEN p) = true ->
            exists gs rs, dict_get t (g p) = Some gs /\ dict_get t r = Some rs /\
                          is_fin gs || is_fin rs = true).
  { intros t Hne Ht. destruct (Hol t Ht) as (gt & rt & H1 & H2 & H3).
    exists gt, rt. rewrite (Hother t Hne). auto. }
  destruct Hcase as [(_ & ->) | [(Hne & _ & k & _ & ->) | (_ & _ & ->)]];
    split; simpl; try exact Hcf; intros t Ht.
  - rewrite dict_mem_pop in Ht. apply andb_true_iff in Ht. destruct Ht as [H1 H2].
    apply negb_true_iff, String.eqb_neq in H1. apply Hold; assumption.
  - rewrite dict_mem_set, dict_mem_pop in Ht.
    destruct (String.eqb t s) eqn:E.
    + apply String.eqb_eq in E. subst t. exists gs, rs.
      split; [exact Hg |]. split; [exact Hr |]. apply num_neq_live, Hne.
    + simpl in Ht. apply String.eqb_neq in E. apply Hold; assumption.
  - rewrite dict_mem_pop in Ht. apply andb_true_iff in Ht. destruct Ht as [H1 H2].
    apply negb_true_iff, String.eqb_neq in H1. apply Hold; assumption.
Qed.

Lemma update_state_dom (s : node) (p p' : planner) :
  dom_inv p -> update_state s p = Ok p' -> dom_inv p'.
Proof.
  intros (Hdom & Hs & Hg) H. apply update_state_spec in H.
  destruct H as (r & gs & rs & (Hother & _) & _ & Hr & Hcase).
  assert (Hdom' : forall u, dict_mem u (G p) = true ->
            dict_mem u (g p) = true /\ dict_mem u r = true).
  { intros u Hu. destruct (Hdom u Hu) as [H1 H2]. split; [exact H1 |].
    destruct (string_dec u s) as [-> | Hne].
    - exact (dict_get_mem _ _ _ Hr).
    - unfold dict_mem. rewrite (Hother u Hne). exact H2. }
  destruct Hcase as [(_ & ->) | [(_ & _ & k & _ & ->) | (_ & _ & ->)]];
    repeat split; simpl; try assumption; apply Hdom'; assumption.
Qed.

Lemma update_state_fresh (s : node) (p p' : planner) :
  keys_fresh p -> update_state s p = Ok p' -> keys_fresh p'.
Proof.
  intros Hf H. apply update_state_spec in H.
  destruct H as (r & gs & rs & (Hother & _) & _ & _ & Hcase).
  assert (Hold : forall t k, t <> s -> dict_get t (OPEN p) = Some k ->
            key (with_rhs r p) t = Ok k).
  { intros t k Hne Ht. rewrite <- (Hf t k Ht).
    apply key_ext; simpl; auto. }
  destruct Hcase as [(_ & ->) | [(_ & _ & k & Hk & ->) | (_ & _ & ->)]];
    intros t kt Ht; simpl in Ht.
  - destruct (string_dec t s) as [-> | Hne].
    + rewrite dict_get_pop_eq in Ht. discriminate.
    + rewrite dict_get_pop_neq in Ht by exact Hne. exact (Hold t kt Hne Ht).
  - destruct (string_dec t s) as [-> | Hne].
    + rewrite dict_get_set_eq in Ht. inversion Ht. subst kt. exact Hk.
    + rewrite dict_get_set_neq, dict_get_pop_neq in Ht by exact Hne.
      exact (Hold t kt Hne Ht).
  - destruct (string_dec t s) as [-> | Hne].
    + rewrite dict_get_pop_eq in Ht. discriminate.
    + rewrite dict_get_pop_neq in Ht by exact Hne. exact (Hold t kt Hne Ht).
Qed.

Lemma update_state_Inv (s : node) (p p' : planner) :
  Inv p -> update_state s p = Ok p' -> Inv p'.
Proof.
  intros ((H1 & H2 & H3) & H4) H. split; [split; [| split] |].
  - eapply update_state_sets; eauto.
  - eapply update_state_tables; eauto.
  - eapply update_state_dom; eauto.
  - eapply update_state_fresh; eauto.
Qed.

(** A property kept by [update_state] is kept by a run of updates. *)
Lemma update_states_ind (P : planner -> Prop) :
  (forall s p p', P p -> update_state s p = Ok p' -> P p') ->
  forall xs p p', P p -> update_states xs p = Ok p' -> P p'.
Proof.
  intros Hstep xs. induction xs as [|x xs IH]; intros p p' HP H; simpl in H.
  - inversion H; subst. exact HP.
  - inv_bind H. eapply IH; [| exact H]. eapply Hstep; eauto.
Qed.

Lemma expand_spec (so : option node) (p p' : planner) :
  expand so p = Ok p' ->
  exists s gs rs adj,
    so = Some s /\ dict_mem s (OPEN p) = true /\
    dict_get s (g p) = Some gs /\ dict_get s (rhs p) = Some rs /\
    dict_get s (G p) = Some adj /\
    let p2 := with_visited (set_add s (visited p))
                (with_OPEN (dict_pop s (OPEN p)) p) in
    ((num_ltb rs gs = true /\
      update_states (dict_keys adj)
        (with_CLOSED (set_add s (CLOSED p2)) (with_g (dict_set s rs (g p2)) p2))
      = Ok p') \/
     (num_ltb rs gs = false /\
      exists p4,
        update_states (dict_keys adj) (with_g (dict_set s Inf (g p2)) p2) = Ok p4 /\
        update_state s p4 = Ok p')).
Proof.
  unfold expand. intros H. inv_bind H. destruct a as [s p1].
  destruct so as [s0|]; simpl in E; [| discriminate].
  destruct (dict_mem s0 (OPEN p)) eqn:Em; [| discriminate].
  inversion E; subst s p1. clear E.
  inv_bind H. rename a into gs. apply lookup_ok in E.
  inv_bind H. rename a into rs. apply lookup_ok in E0.
  simpl in E, E0.
  destruct (num_ltb rs gs) eqn:Elt.
  - inv_bind H. rename a into xs. unfold get_neighbor in E1. simpl in E1.
    inv_bind E1. rename a into adj. apply lookup_ok in E2. inversion E1; subst xs.
    exists s0, gs, rs, adj. repeat (split; [assumption || reflexivity |]).
    left. split; [exact Elt | exact H].
  - inv_bind H. rename a into xs. unfold get_neighbor in E1. simpl in E1.
    inv_bind E1. rename a into adj. apply lookup_ok in E2. inversion E1; subst xs.
    inv_bind H. rename a into p4.
    exists s0, gs, rs, adj. repeat (split; [assumption || reflexivity |]).
    right. split; [exact Elt |]. exists p4. auto.
Qed.

Lemma pop_sets (s : node) (p : planner) :
  sets_inv p ->
  sets_inv (with_visited (set_add s (visited p)) (with_OPEN (dict_pop s (OPEN p)) p)).
Proof.
  intros [Hoc Hic]. split; simpl; intros t Ht; [| apply Hic, Ht].
  rewrite dict_mem_pop in Ht. apply andb_true_iff in Ht. apply Hoc, Ht.
Qed.

Lemma lower_sets (s : node) (v : num) (p : planner) :
  sets_inv p -> dict_mem s (OPEN p) = false ->
  sets_inv (with_CLOSED (set_add s (CLOSED p)) (with_g (dict_set s v (g p)) p)).
Proof.
  intros [Hoc Hic] Hs. split; simpl; intros t Ht; rewrite set_mem_add.
  - rewrite (Hoc t Ht), orb_false_r. apply String.eqb_neq. congruence.
  - rewrite (Hic t Ht). apply orb_true_r.
Qed.

Lemma raise_sets (s : node) (p : planner) :
  sets_inv p -> sets_inv (with_g (dict_set s Inf (g p)) p).
Proof. intros H. exact H. Qed.

Lemma settle_over_Inv (s : node) (gs rs : num) (p : planner) :
  Inv p -> dict_get s (g p) = Some gs -> dict_get s (rhs p) = Some rs ->
  num_ltb rs gs = true ->
  let p2 := with_visited (set_add s (visited p))
              (with_OPEN (dict_pop s (OPEN p)) p) in
  Inv (with_CLOSED (set_add s (CLOSED p2)) (with_g (dict_set s rs (g p2)) p2)).
Proof.
  intros ((Hsets & (Hcf & Hol) & (Hdom & Hends)) & Hfresh) Hg Hr Hlt p2.
  split; [split; [| split] |].
  - apply lower_sets; [apply pop_sets; exact Hsets |].
    simpl. rewrite dict_mem_pop, String.eqb_refl. reflexivity.
  - split; simpl; intros t Ht.
    + destruct (string_dec t s) as [-> | Hne].
      * rewrite dict_get_set_eq. apply num_ltb_fin in Hlt.
        destruct rs; [eauto | discriminate].
      * rewrite dict_get_set_neq by exact Hne. apply Hcf.
        rewrite set_mem_add in Ht. apply String.eqb_neq in Hne.
        rewrite Hne in Ht. exact Ht.
    + rewrite dict_mem_pop in Ht. apply andb_true_iff in Ht. destruct Ht as [H1 H2].
      apply negb_true_iff, String.eqb_neq in H1.
      rewrite dict_get_set_neq by exact H1. apply Hol, H2.
  - split; [| exact Hends]. simpl. intros u Hu.
    destruct (Hdom u Hu) as [H1 H2]. split; [| exact H2].
    rewrite dict_mem_set, H1. apply orb_true_r.
  - intros t k Ht. simpl in Ht.
    destruct (string_dec t s) as [-> | Hne].
    + rewrite dict_get_pop_eq in Ht. discriminate.
    + rewrite dict_get_pop_neq in Ht by exact Hne.
      rewrite <- (Hfresh t k Ht). apply key_ext; simpl; auto.
      apply dict_get_set_neq. exact Hne.
Qed.

Lemma settle_under_Inv (s : node) (p : planner) :
  Inv p -> dict_mem s (OPEN p) = true ->
  let p2 := with_visited (set_add s (visited p))
              (with_OPEN (dict_pop s (OPEN p)) p) in
  Inv (with_g (dict_set s Inf (g p2)) p2).
Proof.
  intros ((Hsets & (Hcf & Hol) & (Hdom & Hends)) & Hfresh) Hs p2.
  split; [split; [| split] |].
  - apply raise_sets, pop_sets. exact Hsets.
  - split; simpl; intros t Ht.
    + assert (Hne : t <> s).
      { intros ->. destruct Hsets as [Hoc _]. rewrite (Hoc s Hs) in Ht. discriminate. }
      rewrite dict_get_set_neq by exact Hne. apply Hcf, Ht.
    + rewrite dict_mem_pop in Ht. apply andb_true_iff in Ht. destruct Ht as [H1 H2].
      apply negb_true_iff, String.eqb_neq in H1.
      rewrite dict_get_set_neq by exact H1. apply Hol, H2.
  - split; [| exact Hends]. simpl. intros u Hu.
    destruct (Hdom u Hu) as [H1 H2]. split; [| exact H2].
    rewrite dict_mem_set, H1. apply orb_true_r.
  - intros t k Ht. simpl in Ht.
    destruct (string_dec t s) as [-> | Hne].
    + rewrite dict_get_pop_eq in Ht. discriminate.
    + rewrite dict_get_pop_neq in Ht by exact Hne.
      rewrite <- (Hfresh t k Ht). apply key_ext; simpl; auto.
      apply dict_get_set_neq. exact Hne.
Qed.

Lemma expand_Inv (so : option node) (p p' : planner) :
  Inv p -> expand so p = Ok p' -> Inv p'.
Proof.
  intros HI H. apply expand_spec in H.
  destruct H as (s & gs & rs & adj & _ & Hs & Hg & Hr & _ & Hcase).
  destruct Hcase as [(Hlt & H) | (_ & p4 & H & H')].
  - eapply (update_states_ind Inv update_state_Inv); [| exact H].
    apply (settle_over_Inv s gs rs p); assumption.
  - eapply update_state_Inv; [| exact H'].
    eapply (update_states_ind Inv update_state_Inv); [| exact H].
    apply (settle_under_Inv s p); assumption.
Qed.

(** A property kept by [expand] is kept by the main loop, which returns only
    when its termination test holds. *)
Lemma improve_loop_ind (P : planner -> Prop) :
  (forall so p p', P p -> expand so p = Ok p' -> P p') ->
  forall fuel p p', P p -> improve_loop fuel p = Ok p' ->
    P p' /\ stop_test (snd (smallest_key p')) p' = Ok true.
Proof.
  intros Hstep fuel. induction fuel as [|fuel IH]; intros p p' HP H; simpl in H.
  - discriminate.
  - destruct (smallest_key p) as [so v] eqn:Esk.
    inv_bind H. rename a into stop. destruct stop.
    + inversion H; subst p'. rewrite Esk. simpl. auto.
    + inv_bind H. eapply IH; [| exact H]. eapply Hstep; eauto.
Qed.

Lemma reprime_Inv (p p' : planner) : Inv0 p -> reprime p = Ok p' -> Inv p'.
Proof.
  intros (Hsets & (Hcf & Hol) & (Hdom & Hends)) H.
  apply reprime_spec in H. destruct H as (o & -> & Hmem & Hkeys).
  split; [split; [| split] |].
  - split; simpl; intros t Ht; [reflexivity | discriminate].
  - split; simpl; intros t Ht; [discriminate |].
    destruct (dict_mem_get _ _ Ht) as (k & Hk).
    destruct (key_ok_inv _ _ _ (Hkeys t k Hk)) as (gs & rs & Hg & Hr).
    apply Hmem in Ht. destruct Ht as [Ht | Ht].
    + apply Hol, Ht.
    + destruct Hsets as [_ Hic]. destruct (Hcf t (Hic t Ht)) as (q & Hq).
      exists (Fin q), rs. auto.
  - split; [exact Hdom | exact Hends].
  - intros t k Ht. simpl in Ht. rewrite <- (Hkeys t k Ht). reflexivity.
Qed.

Lemma set_weight_Inv (a b : node) (w : num) (p p' : planner) :
  Inv p -> set_weight a b w p = Ok p' -> Inv p'.
Proof.
  intros ((Hsets & Htab & (Hdom & Hends)) & Hfresh) H.
  apply set_weight_spec in H. destruct H as (adj & at_ & Ha & _ & ->).
  assert (Hmem : forall u, dict_mem u (dict_set a (dict_set b (dict_set (weight p) w at_) adj) (G p))
                           = dict_mem u (G p)).
  { intros u. rewrite dict_mem_set. destruct (String.eqb u a) eqn:E; [| reflexivity].
    apply String.eqb_eq in E. subst. symmetry. exact (dict_get_mem _ _ _ Ha). }
  split; [split; [| split] |]; try assumption.
  split; simpl.
  - intros u Hu. rewrite Hmem in Hu. apply Hdom, Hu.
  - rewrite !Hmem. exact Hends.
Qed.

Lemma apply_changes_ind (P : planner -> Prop) :
  (forall s p p', P p -> update_state s p = Ok p' -> P p') ->
  (forall a b w p p', P p -> set_weight a b w p = Ok p' -> P p') ->
  forall changes p p', P p -> apply_changes changes p = Ok p' -> P p'.
Proof.
  intros Hu Hw changes.
  induction changes as [|[[a b] w] rest IH]; intros p p' HP H; simpl in H.
  - inversion H; subst. exact HP.
  - inv_bind H. rename a0 into p1. inv_bind H. rename a0 into p2.
    inv_bind H. rename a0 into p3. inv_bind H. rename a0 into p4.
    eapply IH; [| exact H]. eauto 6.
Qed.

Lemma Inv0_with_epsilon (eps : Q) (p : planner) : Inv0 p -> Inv0 (with_epsilon eps p).
Proof. intros H. exact H. Qed.

Lemma compute_Inv (fuel : nat) (eps : Q) (p p' : planner) :
  Inv p -> (initialize p = true -> eps = epsilon p) ->
  compute_or_improve_path fuel eps p = Ok p' ->
  Inv p' /\ initialize p' = false /\ epsilon p' = eps /\
  stop_test (snd (smallest_key p')) p' = Ok true.
Proof.
  intros HI Hinit H. unfold compute_or_improve_path in H.
  inv_bind H. rename a into p1.
  assert (H1 : Inv p1 /\ initialize p1 = false /\ epsilon p1 = eps).
  { destruct (initialize p) eqn:Ei.
    - inversion E; subst p1. simpl. split; [| auto].
      rewrite (Hinit eq_refl). destruct HI as [H0 Hf].
      split; [exact H0 |]. intros t k Ht. simpl in Ht.
      rewrite <- (Hf t k Ht). reflexivity.
    - pose proof (reprime_frame _ _ E) as (Hfr & _).
      apply reprime_Inv in E; [| apply Inv0_with_epsilon, HI].
      split; [exact E |]. destruct Hfr as (_ & _ & _ & _ & _ & He & _ & Hi).
      simpl in He, Hi. split; congruence. }
  destruct H1 as (HI1 & Hi1 & He1).
  pose proof (improve_loop_ind
                (fun q => Inv q /\ initialize q = false /\ epsilon q = eps)) as Hloop.
  destruct (Hloop) with (fuel := fuel) (p := p1) (p' := p') as ((A & B & C) & D);
    auto.
  intros so q q' (Q1 & Q2 & Q3) Hq. split; [eapply expand_Inv; eauto |].
  clear - Q2 Q3 Hq.
  assert (Hf : initialize q' = initialize q /\ epsilon q' = epsilon q).
  { apply expand_spec in Hq.
    destruct Hq as (s & gs & rs & adj & _ & _ & _ & _ & _ & Hcase).
    pose proof (update_states_ind
      (fun x => initialize x = initialize q /\ epsilon x = epsilon q)) as Hus.
    assert (Hstep : forall s0 x x',
              initialize x = initialize q /\ epsilon x = epsilon q ->
              update_state s0 x = Ok x' ->
              initialize x' = initialize q /\ epsilon x' = epsilon q).
    { intros s0 x x' [X1 X2] Hx. apply update_state_frame in Hx.
      destruct Hx as ((_ & _ & _ & _ & _ & He & _ & Hi) & _). split; congruence. }
    destruct Hcase as [(_ & H) | (_ & p4 & H & H')].
    - eapply Hus; [exact Hstep | | exact H]. simpl. auto.
    - eapply Hstep; [| exact H']. eapply Hus; [exact Hstep | | exact H].
      simpl. auto. }
  destruct Hf. split; congruence.
Qed.

(** ** Construction and the states a caller can hold *)

Lemma init_table_get {V : Type} (u : node) (d : dict V) :
  dict_get u (map (fun s => (s, Inf)) (dict_keys d))
  = if dict_mem u d then Some Inf else None.
Proof.
  unfold dict_mem, dict_keys. induction d as [|[k v] d IH]; simpl; [reflexivity |].
  destruct (String.eqb u k); [reflexivity | exact IH].
Qed.

Lemma ADA_star_spec (fuel : nat) (s t : node) (G0 : graph)
    (h : node -> node -> Q) (wt : string) (eps : Q) (p : planner) :
  ADA_star fuel s t G0 h wt eps = Ok p ->
  exists k,
    dict_mem s G0 = true /\ dict_mem t G0 = true /\
    key (init_tables s t G0 h wt eps) t = Ok k /\
    compute_or_improve_path fuel eps
      (with_OPEN (dict_set t k []) (init_tables s t G0 h wt eps)) = Ok p.
Proof.
  unfold ADA_star. intros H.
  destruct (dict_mem s G0) eqn:Es; simpl in H; [| discriminate].
  destruct (dict_mem t G0) eqn:Et; simpl in H; [| discriminate].
  inv_bind H. rename a into k. exists k. simpl in H. auto.
Qed.

Lemma primed_Inv (s t : node) (G0 : graph) (h : node -> node -> Q)
    (wt : string) (eps : Q) (k : prio) :
  dict_mem s G0 = true -> dict_mem t G0 = true ->
  key (init_tables s t G0 h wt eps) t = Ok k ->
  Inv (with_OPEN (dict_set t k []) (init_tables s t G0 h wt eps)).
Proof.
  intros Hs Ht Hk. split; [split; [| split] |].
  - split; simpl; intros u Hu; [reflexivity | discriminate].
  - split; simpl; intros u Hu; [discriminate |].
    unfold dict_mem in Hu. simpl in Hu.
    destruct (String.eqb u t) eqn:E; [| discriminate].
    apply String.eqb_eq in E. subst u.
    exists Inf, (Fin 0). split; [| split; [| reflexivity]].
    + rewrite init_table_get, Ht. reflexivity.
    + apply dict_get_set_eq.
  - split; [| simpl; auto]. simpl. intros u Hu.
    assert (Hg : dict_mem u (map (fun s0 : string => (s0, Inf)) (dict_keys G0)) = true).
    { unfold dict_mem. rewrite init_table_get, Hu. reflexivity. }
    split; [exact Hg |]. rewrite dict_mem_set, Hg. apply orb_true_r.
  - intros u ku Hu. simpl in Hu.
    destruct (String.eqb u t) eqn:E; [| discriminate].
    apply String.eqb_eq in E. subst u. inversion Hu. subst ku. exact Hk.
Qed.

Lemma update_graph_Inv (changes : list change) (p p' : planner) :
  Inv p -> update_graph changes p = Ok p' -> Inv p'.
Proof.
  unfold update_graph. intros HI H. inv_bind H. rename a into p1.
  eapply reprime_Inv; [| exact H].
  apply (apply_changes_ind Inv update_state_Inv set_weight_Inv _ _ _ HI E).
Qed.

Lemma produced_Inv (p : planner) :
  produced p -> Inv p /\ initialize p = false.
Proof.
  induction 1 as [fuel s t G0 h wt eps p H | fuel eps p p' _ [IH1 IH2] H
                 | changes p p' _ [IH1 IH2] H].
  - apply ADA_star_spec in H. destruct H as (k & Hs & Ht & Hk & H).
    apply compute_Inv in H; [tauto | apply primed_Inv; assumption | reflexivity].
  - apply compute_Inv in H; [tauto | exact IH1 | congruence].
  - split; [eapply update_graph_Inv; eauto |].
    apply update_graph_frame in H.
    destruct H as (_ & _ & _ & _ & _ & _ & _ & Hi). congruence.
Qed.

Lemma returned_from_Inv (eps : Q) (p : planner) :
  returned_from eps p ->
  Inv p /\ initialize p = false /\ epsilon p = eps /\
  stop_test (snd (smallest_key p)) p = Ok true.
Proof.
  intros [(fuel & s & t & G0 & h & wt & H) | (fuel & p0 & Hp0 & H)].
  - apply ADA_star_spec in H. destruct H as (k & Hs & Ht & Hk & H).
    apply compute_Inv in H; [exact H | apply primed_Inv; assumption | reflexivity].
  - apply produced_Inv in Hp0. destruct Hp0 as [HI Hi].
    apply compute_Inv in H; [exact H | exact HI | congruence].
Qed.

(** ** States in flight *)

Lemma in_flight_sets (p : planner) : in_flight p -> sets_inv p.
Proof.
  induction 1 as [s t G0 h wt eps k Hs Ht Hk | eps p _ IH | p _ IH
                 | eps p p' _ IH H | s p _ IH | s p _ IH | s v p _ IH
                 | s p _ IH Hs | s v p _ IH | s p p' _ IH H
                 | a b w p p' _ IH H]; try exact IH.
  - split; simpl; intros u Hu; [reflexivity | discriminate].
  - apply reprime_spec in H. destruct H as (o & -> & _).
    split; simpl; intros u Hu; [reflexivity | discriminate].
  - destruct IH as [Hoc Hic]. split; simpl; intros t Ht; [| apply Hic, Ht].
    rewrite dict_mem_pop in Ht. apply andb_true_iff in Ht. apply Hoc, Ht.
  - destruct IH as [Hoc Hic]. split; simpl; intros t Ht; rewrite set_mem_add.
    + rewrite (Hoc t Ht), orb_false_r. apply String.eqb_neq. congruence.
    + rewrite (Hic t Ht). apply orb_true_r.
  - eapply update_state_sets; eauto.
  - apply set_weight_spec in H. destruct H as (adj & at_ & _ & _ & ->). exact IH.
Qed.

Lemma in_flight_update_states (xs : list node) (p p' : planner) :
  in_flight p -> update_states xs p = Ok p' -> in_flight p'.
Proof.
  apply (update_states_ind in_flight). intros s q q' Hq H.
  exact (in_flight_update_state s q q' Hq H).
Qed.

Lemma in_flight_expand (so : option node) (p p' : planner) :
  in_flight p -> expand so p = Ok p' -> in_flight p'.
Proof.
  intros Hp H. apply expand_spec in H.
  destruct H as (s & gs & rs & adj & _ & Hs & _ & _ & _ & Hcase).
  pose proof (in_flight_visit s _ (in_flight_open_pop s p Hp)) as Hp2.
  destruct Hcase as [(_ & H) | (_ & p4 & H & H')].
  - eapply in_flight_update_states; [| exact H].
    apply (in_flight_close s _ (in_flight_set_g s rs _ Hp2)).
    simpl. rewrite dict_mem_pop, String.eqb_refl. reflexivity.
  - eapply in_flight_update_state; [| exact H'].
    eapply in_flight_update_states; [| exact H].
    exact (in_flight_set_g s Inf _ Hp2).
Qed.

Lemma in_flight_compute (fuel : nat) (eps : Q) (p p' : planner) :
  in_flight p -> compute_or_improve_path fuel eps p = Ok p' -> in_flight p'.
Proof.
  intros Hp H. unfold compute_or_improve_path in H. inv_bind H. rename a into p1.
  assert (H1 : in_flight p1).
  { destruct (initialize p).
    - inversion E; subst. apply in_flight_started, in_flight_set_epsilon, Hp.
    - eapply in_flight_reprime; eauto. }
  apply (improve_loop_ind in_flight in_flight_expand fuel p1 p' H1 H).
Qed.

Lemma with_epsilon_same (p : planner) : with_epsilon (epsilon p) p = p.
Proof. destruct p; reflexivity. Qed.

Lemma in_flight_update_graph (changes : list change) (p p' : planner) :
  in_flight p -> update_graph changes p = Ok p' -> in_flight p'.
Proof.
  unfold update_graph. intros Hp H. inv_bind H. rename a into p1.
  apply (in_flight_reprime (epsilon p1) p1 p').
  - apply (apply_changes_ind in_flight in_flight_update_state
             in_flight_set_weight _ _ _ Hp E).
  - rewrite with_epsilon_same. exact H.
Qed.

Lemma produced_in_flight (p : planner) : produced p -> in_flight p.
Proof.
  induction 1 as [fuel s t G0 h wt eps p H | fuel eps p p' _ IH H
                 | changes p p' _ IH H].
  - apply ADA_star_spec in H. destruct H as (k & Hs & Ht & Hk & H).
    eapply in_flight_compute; [| exact H]. apply in_flight_primed; assumption.
  - eapply in_flight_compute; eauto.
  - eapply in_flight_update_graph; eauto.
Qed.

(** ** Repeating a call *)

Lemma rekey_fresh (xs : list node) (p : planner) :
  (forall t, In t xs -> exists k, dict_get t (OPEN p) = Some k /\ key p t = Ok k) ->
  rekey xs p = Ok p.
Proof.
  induction xs as [|x xs IH]; intros H; simpl; [reflexivity |].
  destruct (H x (or_introl eq_refl)) as (k & Hk & Hkey).
  rewrite Hkey. simpl. rewrite (dict_set_same _ _ _ Hk), with_OPEN_same.
  apply IH. intros t Ht. apply H. right. exact Ht.
Qed.

Lemma with_INCONS_same (p : planner) : with_INCONS (INCONS p) p = p.
Proof. destruct p; reflexivity. Qed.

Lemma reprime_idle (p : planner) :
  keys_fresh p -> INCONS p = [] -> reprime p = Ok (with_CLOSED [] p).
Proof.
  intros Hf Hinc. unfold reprime. rewrite Hinc. simpl.
  rewrite <- Hinc, with_INCONS_same.
  rewrite rekey_fresh; [reflexivity |].
  intros t Ht. apply dict_mem_keys, dict_mem_get in Ht.
  destruct Ht as (k & Hk). exists k. split; [exact Hk | apply Hf, Hk].
Qed.

Lemma min_from_ext (p q : planner) (s : node) :
  G q = G p -> g q = g p -> weight q = weight p ->
  forall xs best bv, min_from q s xs best bv = min_from p s xs best bv.
Proof.
  intros HG Hg Hw xs. induction xs as [|x xs IH]; intros best bv; simpl;
    [reflexivity |].
  unfold path_value, cost. rewrite HG, Hg, Hw.
  destruct (lookup x (g p)); simpl; try reflexivity.
  destruct (lookup s (G p)); simpl; try reflexivity.
  destruct (lookup x a0); simpl; try reflexivity.
  destruct (lookup (weight p) a1); simpl; try reflexivity.
  destruct (num_ltb _ bv); apply IH.
Qed.

Lemma extract_loop_ext (p q : planner) :
  G q = G p -> g q = g p -> weight q = weight p -> s_goal q = s_goal p ->
  forall n s path, extract_loop n q s path = extract_loop n p s path.
Proof.
  intros HG Hg Hw Hgoal n. induction n as [|n IH]; intros s path; simpl;
    [reflexivity |].
  unfold get_neighbor. rewrite HG.
  destruct (lookup s (G p)) as [adj| |] eqn:Ead; simpl; try reflexivity.
  assert (Hmin : min_neighbour q s (dict_keys adj) = min_neighbour p s (dict_keys adj)).
  { unfold min_neighbour. destruct (dict_keys adj) as [|x xs]; [reflexivity |].
    unfold path_value, cost. rewrite HG, Hg, Hw.
    destruct (lookup x (g p)); simpl; try reflexivity.
    rewrite Ead. simpl.
    destruct (lookup x adj); simpl; try reflexivity.
    destruct (lookup (weight p) a0); simpl; try reflexivity.
    apply min_from_ext; assumption. }
  rewrite Hmin. destruct (min_neighbour p s (dict_keys adj)); simpl; try reflexivity.
  rewrite Hgoal. destruct (String.eqb a (s_goal p)); [reflexivity | apply IH].
Qed.

(** ** The shape of the graph *)

Lemma same_shape_refl (p : planner) : same_shape p p.
Proof. unfold same_shape. repeat split; auto. Qed.

Lemma same_shape_trans (p q r : planner) :
  same_shape p q -> same_shape q r -> same_shape p r.
Proof.
  intros (A1 & A2 & A3 & A4 & A5) (B1 & B2 & B3 & B4 & B5).
  unfold same_shape. repeat split; try congruence.
  - intros H. apply A5, B5, H.
  - intros H. apply B5, A5, H.
Qed.

Lemma same_shape_of_eq (p p' : planner) :
  s_start p' = s_start p -> s_goal p' = s_goal p -> weight p' = weight p ->
  G p' = G p -> same_shape p p'.
Proof.
  intros A B C D. unfold same_shape. rewrite A, B, C, D. repeat split; auto.
Qed.

Lemma update_state_shape (s : node) (p p' : planner) :
  update_state s p = Ok p' -> same_shape p p'.
Proof.
  intros H. apply update_state_frame in H.
  destruct H as ((_ & A & B & _ & C & _) & D & _).
  apply same_shape_of_eq; assumption.
Qed.

Lemma update_states_shape (xs : list node) (p p' : planner) :
  update_states xs p = Ok p' -> same_shape p p'.
Proof.
  intros H.
  apply (update_states_ind (fun q => same_shape p q)) with (xs := xs) (p := p);
    [| apply same_shape_refl | exact H].
  intros s q q' Hq Hs. eapply same_shape_trans; [exact Hq |].
  eapply update_state_shape; eauto.
Qed.

Lemma expand_shape (so : option node) (p p' : planner) :
  expand so p = Ok p' -> same_shape p p'.
Proof.
  intros H. apply expand_spec in H.
  destruct H as (s & gs & rs & adj & _ & _ & _ & _ & _ & Hcase).
  destruct Hcase as [(_ & H) | (_ & p4 & H & H')].
  - apply update_states_shape in H.
    eapply same_shape_trans; [| exact H]. apply same_shape_of_eq; reflexivity.
  - apply update_states_shape in H. apply update_state_shape in H'.
    eapply same_shape_trans; [| exact H'].
    eapply same_shape_trans; [| exact H]. apply same_shape_of_eq; reflexivity.
Qed.

Lemma improve_loop_shape (fuel : nat) (p p' : planner) :
  improve_loop fuel p = Ok p' -> same_shape p p'.
Proof.
  intros H.
  apply (improve_loop_ind (fun q => same_shape p q)) with (fuel := fuel) (p := p);
    [| apply same_shape_refl | exact H].
  intros so q q' Hq Hs. eapply same_shape_trans; [exact Hq |].
  eapply expand_shape; eauto.
Qed.

Lemma reprime_shape (p p' : planner) : reprime p = Ok p' -> same_shape p p'.
Proof.
  intros H. apply reprime_spec in H. destruct H as (o & -> & _).
  apply same_shape_of_eq; reflexivity.
Qed.

Lemma compute_shape (fuel : nat) (eps : Q) (p p' : planner) :
  compute_or_improve_path fuel eps p = Ok p' -> same_shape p p'.
Proof.
  unfold compute_or_improve_path. intros H. inv_bind H. rename a into p1.
  apply improve_loop_shape in H. eapply same_shape_trans; [| exact H].
  destruct (initialize p).
  - inversion E; subst. apply same_shape_of_eq; reflexivity.
  - apply reprime_shape in E. exact E.
Qed.

Lemma set_weight_shape (a b : node) (w : num) (p p' : planner) :
  set_weight a b w p = Ok p' -> same_shape p p'.
Proof.
  intros H. apply set_weight_spec in H. destruct H as (adj & at_ & Ha & Hb & ->).
  unfold same_shape. simpl.
  assert (Hmem : forall u,
            dict_mem u (dict_set a (dict_set b (dict_set (weight p) w at_) adj) (G p))
            = dict_mem u (G p)).
  { intros u. rewrite dict_mem_set. destruct (String.eqb u a) eqn:E; [| reflexivity].
    apply String.eqb_eq in E. subst. symmetry. exact (dict_get_mem _ _ _ Ha). }
  assert (Hadj : forall v,
            dict_mem v (dict_set b (dict_set (weight p) w at_) adj) = dict_mem v adj).
  { intros v. rewrite dict_mem_set. destruct (String.eqb v b) eqn:E; [| reflexivity].
    apply String.eqb_eq in E. subst. symmetry. exact (dict_get_mem _ _ _ Hb). }
  repeat split; auto.
  - intros (adj' & Hu & Hv). destruct (string_dec u a) as [-> | Hne].
    + rewrite dict_get_set_eq in Hu. inversion Hu; subst adj'.
      rewrite Hadj in Hv. exists adj. auto.
    + rewrite dict_get_set_neq in Hu by exact Hne. exists adj'. auto.
  - intros (adj' & Hu & Hv). destruct (string_dec u a) as [-> | Hne].
    + rewrite Ha in Hu. inversion Hu; subst adj'.
      eexists. split; [apply dict_get_set_eq |]. rewrite Hadj. exact Hv.
    + exists adj'. split; [| exact Hv].
      rewrite dict_get_set_neq by exact Hne. exact Hu.
Qed.

Lemma update_graph_shape (changes : list change) (p p' : planner) :
  update_graph changes p = Ok p' -> same_shape p p'.
Proof.
  unfold update_graph. intros H. inv_bind H. rename a into p1.
  apply reprime_shape in H. eapply same_shape_trans; [| exact H].
  apply (apply_changes_ind (fun q => same_shape p q)) with (changes := changes) (p := p);
    [| | apply same_shape_refl | exact E].
  - intros s q q' Hq Hs. eapply same_shape_trans; [exact Hq |].
    eapply update_state_shape; eauto.
  - intros a b w q q' Hq Hs. eapply same_shape_trans; [exact Hq |].
    eapply set_weight_shape; eauto.
Qed.

Lemma connected_shape (G1 G2 : graph) (s u : node) :
  (forall a b, edge_in G2 a b <-> edge_in G1 a b) ->
  connected G1 s u -> connected G2 s u.
Proof.
  intros He H. induction H as [|v w _ IH Hvw]; [constructor |].
  eapply connected_step; [exact IH |]. apply He, Hvw.
Qed.

Lemma same_shape_connected (p p' : planner) (u : node) :
  same_shape p p' ->
  (connected (G p') (s_start p') u <-> connected (G p) (s_start p) u).
Proof.
  intros (A & _ & _ & _ & He). rewrite A. split; apply connected_shape.
  - intros a b. symmetry. apply He.
  - exact He.
Qed.

(** ** Open and deferred states are nodes *)

Lemma update_state_nodes (s : node) (p p' : planner) :
  dom_inv p -> nodes_inv p -> update_state s p = Ok p' -> nodes_inv p'.
Proof.
  intros (_ & _ & Hgoal) HN H. apply update_state_spec in H.
  destruct H as (r & gs & rs & (_ & _ & Hne) & _ & _ & Hcase).
  assert (Hs : dict_mem s (G p) = true).
  { destruct (string_dec s (s_goal p)) as [-> | Hsg]; [exact Hgoal |].
    destruct (Hne Hsg) as (adj & Hadj & _). exact (dict_get_mem _ _ _ Hadj). }
  destruct Hcase as [(_ & ->) | [(_ & _ & k & _ & ->) | (_ & _ & ->)]];
    intros t Ht; simpl in *.
  - apply HN. destruct Ht as [Ht | Ht]; [left | right; exact Ht].
    rewrite dict_mem_pop in Ht. apply andb_true_iff in Ht. apply Ht.
  - destruct (string_dec t s) as [-> | Hts]; [exact Hs |].
    apply HN. destruct Ht as [Ht | Ht]; [left | right; exact Ht].
    rewrite dict_mem_set, dict_mem_pop in Ht. apply String.eqb_neq in Hts.
    rewrite Hts in Ht. simpl in Ht. exact Ht.
  - destruct (string_dec t s) as [-> | Hts]; [exact Hs |].
    apply HN. destruct Ht as [Ht | Ht]; [left | right].
    + rewrite dict_mem_pop in Ht. apply andb_true_iff in Ht. apply Ht.
    + rewrite dict_mem_set in Ht. apply String.eqb_neq in Hts.
      rewrite Hts in Ht. exact Ht.
Qed.

Lemma update_state_Inv_nodes (s : node) (p p' : planner) :
  Inv_nodes p -> update_state s p = Ok p' -> Inv_nodes p'.
Proof.
  intros [HI HN] H. split; [eapply update_state_Inv; eauto |].
  eapply update_state_nodes; [| exact HN | exact H]. apply HI.
Qed.

Lemma settle_nodes (s : node) (v : num) (c vis : list node) (p : planner) :
  nodes_inv p ->
  nodes_inv (with_CLOSED c (with_g (dict_set s v (g p))
               (with_visited vis (with_OPEN (dict_pop s (OPEN p)) p)))).
Proof.
  intros HN t Ht. simpl in *. apply HN.
  destruct Ht as [Ht | Ht]; [left | right; exact Ht].
  rewrite dict_mem_pop in Ht. apply andb_true_iff in Ht. apply Ht.
Qed.

Lemma expand_Inv_nodes (so : option node) (p p' : planner) :
  Inv_nodes p -> expand so p = Ok p' -> Inv_nodes p'.
Proof.
  intros [HI HN] H. split; [eapply expand_Inv; eauto |].
  apply expand_spec in H.
  destruct H as (s & gs & rs & adj & _ & Hs & Hg & Hr & _ & Hcase).
  destruct Hcase as [(Hlt & H) | (_ & p4 & H & H')].
  - eapply (update_states_ind Inv_nodes update_state_Inv_nodes); [| exact H].
    split; [apply (settle_over_Inv s gs rs p); assumption |].
    exact (settle_nodes s rs _ _ p HN).
  - eapply update_state_Inv_nodes; [| exact H'].
    eapply (update_states_ind Inv_nodes update_state_Inv_nodes); [| exact H].
    split; [apply (settle_under_Inv s p); assumption |].
    exact (settle_nodes s Inf (CLOSED p) _ p HN).
Qed.

Lemma reprime_nodes (p p' : planner) :
  nodes_inv p -> reprime p = Ok p' -> nodes_inv p'.
Proof.
  intros HN H. apply reprime_spec in H. destruct H as (o & -> & Hmem & _).
  intros t Ht. simpl in *. apply HN.
  destruct Ht as [Ht | Ht]; [apply Hmem, Ht | discriminate].
Qed.

Lemma set_weight_Inv_nodes (a b : node) (w : num) (p p' : planner) :
  Inv_nodes p -> set_weight a b w p = Ok p' -> Inv_nodes p'.
Proof.
  intros [HI HN] H. split; [eapply set_weight_Inv; eauto |].
  pose proof (set_weight_shape _ _ _ _ _ H) as (_ & _ & _ & Hmem & _).
  apply set_weight_spec in H. destruct H as (adj & at_ & _ & _ & Hp').
  intros t Ht. rewrite Hmem. apply HN. subst p'. exact Ht.
Qed.

Lemma compute_Inv_nodes (fuel : nat) (eps : Q) (p p' : planner) :
  Inv_nodes p -> (initialize p = true -> eps = epsilon p) ->
  compute_or_improve_path fuel eps p = Ok p' -> Inv_nodes p'.
Proof.
  intros [HI HN] Hinit H. split; [eapply compute_Inv; eauto |].
  unfold compute_or_improve_path in H. inv_bind H. rename a into p1.
  assert (H1 : Inv_nodes p1).
  { destruct (initialize p) eqn:Ei.
    - inversion E; subst p1. split; [| exact HN].
      rewrite (Hinit eq_refl). destruct HI as [H0 Hf].
      split; [exact H0 |]. intros t k Ht. simpl in Ht.
      rewrite <- (Hf t k Ht). reflexivity.
    - split; [eapply reprime_Inv; [| exact E]; apply HI |].
      eapply reprime_nodes; [| exact E]. exact HN. }
  apply (improve_loop_ind Inv_nodes expand_Inv_nodes fuel p1 p' H1 H).
Qed.

Lemma update_graph_Inv_nodes (changes : list change) (p p' : planner) :
  Inv_nodes p -> update_graph changes p = Ok p' -> Inv_nodes p'.
Proof.
  unfold update_graph. intros HI H. inv_bind H. rename a into p1.
  pose proof (apply_changes_ind Inv_nodes update_state_Inv_nodes
                set_weight_Inv_nodes _ _ _ HI E) as [H1 H2].
  split; [eapply reprime_Inv; [| exact H]; apply H1 |].
  eapply reprime_nodes; eauto.
Qed.

Lemma primed_Inv_nodes (s t : node) (G0 : graph) (h : node -> node -> Q)
    (wt : string) (eps : Q) (k : prio) :
  dict_mem s G0 = true -> dict_mem t G0 = true ->
  key (init_tables s t G0 h wt eps) t = Ok k ->
  Inv_nodes (with_OPEN (dict_set t k []) (init_tables s t G0 h wt eps)).
Proof.
  intros Hs Ht Hk. split; [apply primed_Inv; assumption |].
  intros u Hu. simpl in *. destruct Hu as [Hu | Hu]; [| discriminate].
  unfold dict_mem in Hu. simpl in Hu.
  destruct (String.eqb u t) eqn:E; [| discriminate].
  apply String.eqb_eq in E. subst. exact Ht.
Qed.

Lemma produced_Inv_nodes (p : planner) : produced p -> Inv_nodes p.
Proof.
  induction 1 as [fuel s t G0 h wt eps p H | fuel eps p p' Hp IH H
                 | changes p p' _ IH H].
  - apply ADA_star_spec in H. destruct H as (k & Hs & Ht & Hk & H).
    eapply compute_Inv_nodes; [| | exact H];
      [apply primed_Inv_nodes; assumption | reflexivity].
  - eapply compute_Inv_nodes; [exact IH | | exact H].
    apply produced_Inv in Hp. destruct Hp as [_ Hi]. congruence.
  - eapply update_graph_Inv_nodes; eauto.
Qed.

(** ** Operations that cannot fail on a well-formed graph *)

Lemma graph_ok_wf (wt : string) (G0 : graph) :
  graph_ok wt G0 = true -> wf_graph wt G0.
Proof.
  unfold graph_ok, wf_graph. intros H u adj v a Hu Hv.
  rewrite forallb_forall in H. specialize (H _ (dict_get_in _ _ _ Hu)).
  simpl in H. rewrite forallb_forall in H.
  specialize (H _ (dict_get_in _ _ _ Hv)). simpl in H.
  apply andb_true_iff in H. exact H.
Qed.

Lemma key_ok (p : planner) (s : node) :
  dict_mem s (g p) = true -> dict_mem s (rhs p) = true ->
  exists k, key p s = Ok k.
Proof.
  intros Hg Hr. apply dict_mem_get in Hg, Hr.
  destruct Hg as (gs & Hg). destruct Hr as (rs & Hr).
  unfold key, lookup. rewrite Hg, Hr. simpl.
  destruct (num_ltb rs gs); eauto.
Qed.

Lemma cost_ok (p : planner) (s x : node) (adj : dict attrs) :
  wf_graph (weight p) (G p) -> dict_get s (G p) = Some adj ->
  In x (dict_keys adj) -> exists c, cost p s x = Ok c.
Proof.
  intros Hwf Hs Hx. apply dict_mem_keys, dict_mem_get in Hx.
  destruct Hx as (a & Ha). destruct (Hwf _ _ _ _ Hs Ha) as (_ & Hw).
  apply dict_mem_get in Hw. destruct Hw as (c & Hc).
  exists c. unfold cost, lookup. rewrite Hs. simpl. rewrite Ha. simpl.
  rewrite Hc. reflexivity.
Qed.

Lemma update_rhs_ok (s : node) (xs : list node) (p : planner) :
  (forall x, In x xs ->
     dict_mem x (g p) = true /\ exists c, cost p s x = Ok c) ->
  dict_mem s (rhs p) = true ->
  exists p', update_rhs s xs p = Ok p'.
Proof.
  revert p. induction xs as [|x xs IH]; intros p Hall Hs; simpl; [eauto |].
  destruct (Hall x (or_introl eq_refl)) as (Hg & c & Hc).
  apply dict_mem_get in Hs, Hg.
  destruct Hs as (r & Hr). destruct Hg as (gx & Hgx).
  unfold lookup at 1 2. rewrite Hr, Hgx. simpl. rewrite Hc. simpl.
  apply IH.
  - intros y Hy. exact (Hall y (or_intror Hy)).
  - simpl. rewrite dict_mem_set, String.eqb_refl. reflexivity.
Qed.

Lemma update_state_ok (s : node) (p : planner) :
  dom_inv p -> wf_graph (weight p) (G p) -> dict_mem s (G p) = true ->
  exists p', update_state s p = Ok p'.
Proof.
  intros (Hdom & _ & Hgoal) Hwf Hs.
  destruct (Hdom s Hs) as (Hg & Hr).
  assert (H1 : exists r,
            (if String.eqb s (s_goal p) then Ok p
             else
               xs <- get_neighbor (with_rhs (dict_set s Inf (rhs p)) p) s ;;
               update_rhs s xs (with_rhs (dict_set s Inf (rhs p)) p))
            = Ok (with_rhs r p) /\
            dict_mem s r = true).
  { destruct (String.eqb s (s_goal p)).
    - exists (rhs p). rewrite with_rhs_same. auto.
    - destruct (dict_mem_get _ _ Hs) as (adj & Hadj).
      unfold get_neighbor, lookup. simpl. rewrite Hadj. simpl.
      destruct (update_rhs_ok s (dict_keys adj)
                  (with_rhs (dict_set s Inf (rhs p)) p)) as (p1 & Hp1).
      + intros x Hx. split.
        * simpl. apply Hdom. apply dict_mem_keys, dict_mem_get in Hx.
          destruct Hx as (a & Ha). apply (Hwf _ _ _ _ Hadj Ha).
        * exact (cost_ok p s x adj Hwf Hadj Hx).
      + simpl. rewrite dict_mem_set, String.eqb_refl. reflexivity.
      + rewrite Hp1. apply update_rhs_spec in Hp1.
        destruct Hp1 as (r & -> & _ & _ & Hmem).
        exists r. split; [reflexivity |]. apply Hmem. simpl.
        rewrite dict_mem_set, String.eqb_refl. reflexivity. }
  destruct H1 as (r & E1 & Hr'). unfold update_state. rewrite E1. simpl.
  apply dict_mem_get in Hg, Hr'.
  destruct Hg as (gs & Hg). destruct Hr' as (rs & Hrs).
  assert (Hk : forall o, exists k, key (with_OPEN o (with_rhs r p)) s = Ok k).
  { intros o. apply key_ok; simpl.
    - exact (dict_get_mem _ _ _ Hg).
    - exact (dict_get_mem _ _ _ Hrs). }
  destruct (dict_mem s (OPEN p)); unfold lookup; simpl; rewrite Hg, Hrs; simpl;
    destruct (num_eqb gs rs); simpl; eauto;
    destruct (set_mem s (CLOSED p)); simpl; eauto.
  - destruct (Hk (dict_pop s (OPEN p))) as (k & Hkk).
    rewrite key_with_OPEN in Hkk. rewrite key_with_OPEN, Hkk. simpl. eauto.
  - destruct (Hk (OPEN p)) as (k & Hkk).
    rewrite key_with_OPEN in Hkk. rewrite Hkk. simpl. eauto.
Qed.

Lemma update_state_static (s : node) (p p' : planner) :
  update_state s p = Ok p' -> G p' = G p /\ weight p' = weight p.
Proof.
  intros H. apply update_state_frame in H.
  destruct H as ((_ & _ & _ & _ & Hw & _) & HG & _). auto.
Qed.

Lemma update_states_static (xs : list node) (p p' : planner) :
  update_states xs p = Ok p' -> G p' = G p /\ weight p' = weight p.
Proof.
  intros H.
  apply (update_states_ind (fun q => G q = G p /\ weight q = weight p))
    with (xs := xs) (p := p); [| auto | exact H].
  intros s q q' [A B] Hs. apply update_state_static in Hs.
  destruct Hs. split; congruence.
Qed.

Lemma update_states_ok (xs : list node) (p : planner) :
  dom_inv p -> wf_graph (weight p) (G p) ->
  (forall x, In x xs -> dict_mem x (G p) = true) ->
  exists p', update_states xs p = Ok p'.
Proof.
  revert p. induction xs as [|x xs IH]; intros p Hd Hwf Hall; simpl; [eauto |].
  destruct (update_state_ok x p Hd Hwf (Hall x (or_introl eq_refl))) as (p1 & H1).
  rewrite H1. simpl.
  pose proof (update_state_static _ _ _ H1) as [HG Hw].
  apply IH.
  - eapply update_state_dom; eauto.
  - rewrite HG, Hw. exact Hwf.
  - intros y Hy. rewrite HG. apply Hall. right. exact Hy.
Qed.

Lemma expand_static (so : option node) (p p' : planner) :
  expand so p = Ok p' -> G p' = G p /\ weight p' = weight p.
Proof.
  intros H. apply expand_spec in H.
  destruct H as (s & gs & rs & adj & _ & _ & _ & _ & _ & Hcase).
  destruct Hcase as [(_ & H) | (_ & p4 & H & H')].
  - apply update_states_static in H. exact H.
  - apply update_states_static in H. apply update_state_static in H'.
    simpl in *. destruct H, H'. split; congruence.
Qed.

Lemma neighbours_are_nodes (wt : string) (G0 : graph) (s x : node) (adj : dict attrs) :
  wf_graph wt G0 -> dict_get s G0 = Some adj -> In x (dict_keys adj) ->
  dict_mem x G0 = true.
Proof.
  intros Hwf Hs Hx. apply dict_mem_keys, dict_mem_get in Hx.
  destruct Hx as (a & Ha). apply (Hwf _ _ _ _ Hs Ha).
Qed.

Lemma expand_ok (s : node) (p : planner) :
  Inv_nodes p -> wf_graph (weight p) (G p) -> dict_mem s (OPEN p) = true ->
  exists p', expand (Some s) p = Ok p'.
Proof.
  intros [HI HN] Hwf Hs.
  pose proof HI as ((_ & _ & (Hdom & _)) & _).
  assert (HsG : dict_mem s (G p) = true) by (apply HN; left; exact Hs).
  destruct (Hdom s HsG) as (Hg & Hr).
  apply dict_mem_get in Hg, Hr, HsG.
  destruct Hg as (gs & Hg). destruct Hr as (rs & Hr). destruct HsG as (adj & Hadj).
  unfold expand, pop_open. rewrite Hs. simpl.
  unfold lookup at 1 2. simpl. rewrite Hg, Hr. simpl.
  assert (Hnb : forall x, In x (dict_keys adj) -> dict_mem x (G p) = true).
  { intros x Hx. exact (neighbours_are_nodes _ _ _ _ _ Hwf Hadj Hx). }
  destruct (num_ltb rs gs) eqn:Elt.
  - unfold get_neighbor, lookup. simpl. rewrite Hadj. simpl.
    apply update_states_ok; simpl; try assumption.
    apply (settle_over_Inv s gs rs p HI Hg Hr Elt).
  - unfold get_neighbor, lookup. simpl. rewrite Hadj. simpl.
    destruct (update_states_ok (dict_keys adj)
                (with_g (dict_set s Inf (g p))
                   (with_visited (set_add s (visited p))
                      (with_OPEN (dict_pop s (OPEN p)) p)))) as (p4 & H4);
      simpl; try assumption.
    + apply (settle_under_Inv s p HI Hs).
    + rewrite H4. simpl.
      pose proof (update_states_static _ _ _ H4) as [HG Hw]. simpl in HG, Hw.
      apply update_state_ok.
      * eapply (update_states_ind dom_inv update_state_dom); [| exact H4].
        apply (settle_under_Inv s p HI Hs).
      * rewrite HG, Hw. exact Hwf.
      * rewrite HG. exact (dict_get_mem _ _ _ Hadj).
Qed.

Lemma stop_test_ok (v : prio) (p : planner) :
  dom_inv p -> exists b, stop_test v p = Ok b.
Proof.
  intros (Hdom & Hs & _). destruct (Hdom _ Hs) as (Hg & Hr).
  destruct (key_ok p (s_start p) Hg Hr) as (k & Hk).
  unfold stop_test. rewrite Hk. simpl.
  apply dict_mem_get in Hg, Hr.
  destruct Hg as (gs & Hg). destruct Hr as (rs & Hr).
  unfold lookup. rewrite Hg, Hr. simpl.
  destruct (key_lt v k); simpl; eauto.
Qed.

Lemma rekey_ok (xs : list node) (p : planner) :
  (forall t, In t xs -> dict_mem t (g p) = true /\ dict_mem t (rhs p) = true) ->
  exists p', rekey xs p = Ok p'.
Proof.
  revert p. induction xs as [|x xs IH]; intros p Hall; simpl; [eauto |].
  destruct (Hall x (or_introl eq_refl)) as (Hg & Hr).
  destruct (key_ok p x Hg Hr) as (k & Hk). rewrite Hk. simpl.
  apply IH. intros t Ht. simpl. apply Hall. right. exact Ht.
Qed.

Lemma reprime_ok (p : planner) :
  dom_inv p -> nodes_inv p -> exists p', reprime p = Ok p'.
Proof.
  intros (Hdom & _) HN. unfold reprime.
  destruct (rekey_ok (dict_keys (INCONS p)) p) as (p1 & H1).
  { intros t Ht. apply Hdom, HN. right. apply dict_mem_keys, Ht. }
  rewrite H1. simpl. apply rekey_spec in H1.
  destruct H1 as (o1 & -> & Hin & Hout). simpl.
  destruct (rekey_ok (dict_keys o1) (with_INCONS [] (with_OPEN o1 p))) as (p3 & H3).
  { intros t Ht. simpl. apply Hdom, HN.
    destruct (in_dec string_dec t (dict_keys (INCONS p))) as [Hi | Hni].
    - right. apply dict_mem_keys, Hi.
    - left. apply dict_mem_keys in Ht. unfold dict_mem in Ht.
      rewrite (Hout t Hni) in Ht. exact Ht. }
  rewrite H3. simpl. eauto.
Qed.

(** ** The main loop terminates *)

Lemma node_budget_add (s : node) (C : list node) (e : node * num) :
  (node_budget (set_add s C) e <= node_budget C e)%nat.
Proof.
  unfold node_budget. rewrite set_mem_add.
  destruct (String.eqb (fst e) s); simpl; [lia |].
  destruct (set_mem (fst e) C); lia.
Qed.

Lemma budget_add (s : node) (C : list node) (gd : dict num) :
  (list_sum (map (node_budget (set_add s C)) gd)
   <= list_sum (map (node_budget C) gd))%nat.
Proof.
  induction gd as [|e gd IH]; simpl; [lia |].
  pose proof (node_budget_add s C e). lia.
Qed.

Lemma budget_lower (s : node) (v gs : num) (C : list node) (gd : dict num) :
  dict_get s gd = Some gs -> set_mem s C = false ->
  (list_sum (map (node_budget (set_add s C)) (dict_set s v gd))
   < list_sum (map (node_budget C) gd))%nat.
Proof.
  intros Hg Hc. induction gd as [|[k x] gd IH]; simpl in *; [discriminate |].
  destruct (String.eqb s k) eqn:E; simpl.
  - apply String.eqb_eq in E. subst k.
    pose proof (budget_add s C gd).
    unfold node_budget at 1 3. simpl.
    rewrite set_mem_add, String.eqb_refl, Hc. simpl.
    destruct (is_fin x); lia.
  - specialize (IH Hg). pose proof (node_budget_add s C (k, x)). lia.
Qed.

Lemma budget_raise (s : node) (q : Q) (C : list node) (gd : dict num) :
  dict_get s gd = Some (Fin q) -> set_mem s C = false ->
  (list_sum (map (node_budget C) (dict_set s Inf gd))
   < list_sum (map (node_budget C) gd))%nat.
Proof.
  intros Hg Hc. induction gd as [|[k x] gd IH]; simpl in *; [discriminate |].
  destruct (String.eqb s k) eqn:E; simpl.
  - apply String.eqb_eq in E. subst k. inversion Hg; subst x.
    unfold node_budget at 1 3. simpl. rewrite Hc. simpl. lia.
  - specialize (IH Hg). lia.
Qed.

Lemma update_states_budget (xs : list node) (p p' : planner) :
  update_states xs p = Ok p' -> budget p' = budget p.
Proof.
  intros H.
  apply (update_states_ind (fun q => budget q = budget p))
    with (xs := xs) (p := p); [| reflexivity | exact H].
  intros s q q' Hq Hs. apply update_state_frame in Hs.
  destruct Hs as ((Hg & _) & _ & Hc). unfold budget in *. rewrite Hg, Hc. exact Hq.
Qed.

Lemma expand_budget (so : option node) (p p' : planner) :
  Inv p -> expand so p = Ok p' -> (budget p' < budget p)%nat.
Proof.
  intros (((Hoc & _) & (_ & Hol) & _) & _) H. apply expand_spec in H.
  destruct H as (s & gs & rs & adj & _ & Hs & Hg & Hr & _ & Hcase).
  pose proof (Hoc s Hs) as Hc.
  destruct Hcase as [(Hlt & H) | (Hlt & p4 & H & H')].
  - apply update_states_budget in H. rewrite H. unfold budget. simpl.
    exact (budget_lower s rs gs (CLOSED p) (g p) Hg Hc).
  - apply update_states_budget in H.
    apply update_state_frame in H'. destruct H' as ((Hg' & _) & _ & Hc').
    unfold budget in *. rewrite Hg', Hc', H. simpl.
    destruct (Hol s Hs) as (gs' & rs' & Hg2 & Hr2 & Hlive).
    rewrite Hg in Hg2. inversion Hg2; subst gs'.
    rewrite Hr in Hr2. inversion Hr2; subst rs'.
    destruct gs as [q|].
    + exact (budget_raise s q (CLOSED p) (g p) Hg Hc).
    + destruct rs; simpl in *; discriminate.
Qed.

Lemma smallest_key_step_some (acc : option node * prio) (kv : node * prio) (s : node) :
  fst (smallest_key_step acc kv) = Some s -> fst acc = Some s \/ fst kv = s.
Proof.
  destruct acc as [mi [mp ms]], kv as [k [v0 v1]]. unfold smallest_key_step. simpl.
  destruct (num_leb v0 mp); [| auto].
  destruct (num_ltb v1 ms); simpl; intros H; inversion H; auto.
Qed.

Lemma smallest_key_step_none (acc : option node * prio) (kv : node * prio) :
  fst (smallest_key_step acc kv) = None ->
  fst acc = None /\ smallest_key_step acc kv = acc /\ snd acc <> (Inf, Inf).
Proof.
  destruct acc as [mi [mp ms]], kv as [k [v0 v1]]. unfold smallest_key_step. simpl.
  destruct (num_leb v0 mp) eqn:E.
  - destruct (num_ltb v1 ms); simpl; discriminate.
  - simpl. intros H. split; [exact H |]. split; [reflexivity |].
    intros Hacc. inversion Hacc; subst. destruct v0; discriminate.
Qed.

Lemma smallest_key_fold (l : dict prio) (acc : option node * prio) :
  match fst (fold_left smallest_key_step l acc) with
  | Some s => fst acc = Some s \/ In s (dict_keys l)
  | None => fst acc = None /\ fold_left smallest_key_step l acc = acc
            /\ (snd acc = (Inf, Inf) -> l = [])
  end.
Proof.
  revert acc. induction l as [|kv l IH]; intros acc.
  - simpl. destruct (fst acc); auto.
  - change (fold_left smallest_key_step (kv :: l) acc)
      with (fold_left smallest_key_step l (smallest_key_step acc kv)).
    specialize (IH (smallest_key_step acc kv)).
    destruct (fst (fold_left smallest_key_step l (smallest_key_step acc kv)))
      as [s|].
    + destruct IH as [IH | IH].
      * apply smallest_key_step_some in IH. destruct IH as [IH | IH];
          [left; exact IH | right; left; exact IH].
      * right. right. exact IH.
    + destruct IH as (IH1 & IH2 & _).
      apply smallest_key_step_none in IH1. destruct IH1 as (A & B & C).
      split; [exact A |]. split; [congruence |].
      intros Hacc. contradiction.
Qed.

Lemma smallest_key_cases (p : planner) :
  (exists s v, smallest_key p = (Some s, v) /\ dict_mem s (OPEN p) = true) \/
  (smallest_key p = (None, (Inf, Inf)) /\ OPEN p = []).
Proof.
  pose proof (smallest_key_fold (OPEN p) (None, (Inf, Inf))) as H.
  unfold smallest_key.
  destruct (fold_left smallest_key_step (OPEN p) (None, (Inf, Inf))) as [so v] eqn:E.
  simpl in H. destruct so as [s|].
  - left. exists s, v. split; [reflexivity |].
    destruct H as [H | H]; [discriminate | apply dict_mem_keys, H].
  - right. destruct H as (_ & H2 & H3). split; [exact H2 | auto].
Qed.

(** ** Path extraction *)

Lemma min_from_in (p : planner) (s : node) (xs : list node) :
  (forall x, In x xs -> exists v, path_value p s x = Ok v) ->
  forall best bv,
    exists y, min_from p s xs best bv = Ok y /\ (y = best \/ In y xs).
Proof.
  induction xs as [|x xs IH]; intros Hall best bv; simpl; [eauto |].
  destruct (Hall x (or_introl eq_refl)) as (v & Hv). rewrite Hv. simpl.
  assert (Hall' : forall y, In y xs -> exists v, path_value p s y = Ok v).
  { intros y Hy. apply Hall. right. exact Hy. }
  destruct (num_ltb v bv).
  - destruct (IH Hall' x v) as (y & Hy & Hin). exists y.
    split; [exact Hy |]. destruct Hin; auto.
  - destruct (IH Hall' best bv) as (y & Hy & Hin). exists y.
    split; [exact Hy |]. destruct Hin; auto.
Qed.

Lemma split_component (u : node) :
  connected G_split "A" u -> u = "A" \/ u = "B".
Proof.
  induction 1 as [|v w _ IH (adj & Hadj & Hw)]; [left; reflexivity |].
  unfold dict_mem in Hw.
  destruct IH as [-> | ->]; simpl in Hadj; inversion Hadj; subst adj;
    simpl in Hw.
  - destruct (String.eqb w "B") eqn:E; [| discriminate].
    apply String.eqb_eq in E. auto.
  - destruct (String.eqb w "A") eqn:E; [| discriminate].
    apply String.eqb_eq in E. auto.
Qed.

Lemma split_not_connected : ~ connected G_split "A" "C".
Proof. intros H. apply split_component in H. destruct H; discriminate. Qed.

Lemma split_walk (p : planner) :
  G p = G_split -> weight p = "weight" -> s_goal p = "C" ->
  g p = [("A", Inf); ("B", Inf); ("C", Fin 0)] ->
  forall n path,
    extract_loop n p "A" path = NoFuel /\ extract_loop n p "B" path = NoFuel.
Proof.
  intros HG Hw Hgoal Hg n. induction n as [|n IH]; intros path; simpl; [auto |].
  unfold get_neighbor, min_neighbour, path_value, cost, lookup.
  rewrite HG, Hw, Hg, Hgoal. simpl. split; apply IH.
Qed.

(** ** The order on extended numbers and on keys *)

Lemma Qlt_bool_false (x y : Q) : Qlt_bool x y = false <-> y <= x.
Proof.
  unfold Qlt_bool. rewrite negb_false_iff. apply Qle_bool_iff.
Qed.

Lemma Qle_bool_false (x y : Q) : Qle_bool x y = false <-> y < x.
Proof.
  split; intros H.
  - apply Qnot_le_lt. intros Hle. apply Qle_bool_iff in Hle. congruence.
  - destruct (Qle_bool x y) eqn:E; [| reflexivity].
    apply Qle_bool_iff in E. exfalso. exact (Qlt_not_le _ _ H E).
Qed.

Ltac num_bool :=
  repeat match goal with
  | H : Qlt_bool _ _ = true |- _ => apply Qlt_bool_iff in H
  | H : Qlt_bool _ _ = false |- _ => apply Qlt_bool_false in H
  | H : Qle_bool _ _ = true |- _ => apply Qle_bool_iff in H
  | H : Qle_bool _ _ = false |- _ => apply Qle_bool_false in H
  | H : Qeq_bool _ _ = true |- _ => apply Qeq_bool_iff in H
  | H : Qeq_bool _ _ = false |- _ => apply Qeq_bool_neq in H
  | |- Qlt_bool _ _ = true => apply Qlt_bool_iff
  | |- Qlt_bool _ _ = false => apply Qlt_bool_false
  | |- Qle_bool _ _ = true => apply Qle_bool_iff
  | |- Qle_bool _ _ = false => apply Qle_bool_false
  | |- Qeq_bool _ _ = true => apply Qeq_bool_iff
  end.

Ltac num_order :=
  intros;
  repeat match goal with x : num |- _ => destruct x end;
  simpl in *; try discriminate; try reflexivity; try contradiction;
  num_bool; try lra; try tauto.

Lemma num_leb_refl (a : num) : num_leb a a = true.
Proof. num_order. Qed.

Lemma num_leb_trans (a b c : num) :
  num_leb a b = true -> num_leb b c = true -> num_leb a c = true.
Proof. num_order. Qed.

Lemma num_leb_ltb_trans (a b c : num) :
  num_leb a b = true -> num_ltb b c = true -> num_ltb a c = true.
Proof. num_order. Qed.

Lemma num_ltb_leb_trans (a b c : num) :
  num_ltb a b = true -> num_leb b c = true -> num_leb a c = true.
Proof. num_order. Qed.

Lemma num_ltb_false_leb (a b : num) : num_ltb a b = false -> num_leb b a = true.
Proof. num_order. Qed.

Lemma num_leb_false_ltb (a b : num) : num_leb a b = false -> num_ltb b a = true.
Proof. num_order. Qed.

Lemma num_leb_not_ltb (a b : num) : num_leb a b = true -> num_ltb b a = false.
Proof. num_order. Qed.

Lemma num_ltb_leb (a b : num) : num_ltb a b = true -> num_leb a b = true.
Proof. num_order. Qed.

Lemma num_eqb_not_ltb (a b : num) : num_eqb a b = true -> num_ltb b a = false.
Proof. num_order. Qed.

Lemma num_nlt_trans (a b c : num) :
  num_ltb b a = false -> num_ltb c b = false -> num_ltb c a = false.
Proof. num_order. Qed.

Lemma num_ltb_irrefl (a : num) : num_ltb a a = false.
Proof. num_order. Qed.

Lemma num_min_cases (a b : num) :
  (num_min a b = a /\ num_ltb b a = false) \/ (num_min a b = b /\ num_ltb b a = true).
Proof. unfold num_min. destruct (num_ltb b a); auto. Qed.

Lemma key_lt_iff (k1 k2 : prio) :
  key_lt k1 k2 = true <->
  num_lt (fst k1) (fst k2) \/
  (num_eq (fst k1) (fst k2) /\ num_lt (snd k1) (snd k2)).
Proof.
  destruct k1 as [a1 b1], k2 as [a2 b2]. unfold key_lt. simpl.
  destruct (num_ltb a1 a2) eqn:E1.
  - apply num_ltb_lt in E1. split; auto.
  - destruct (num_eqb a1 a2) eqn:E2; simpl.
    + apply num_eqb_eq in E2. destruct (num_ltb b1 b2) eqn:E3.
      * apply num_ltb_lt in E3. split; auto.
      * split; [discriminate |].
        intros [H | [_ H]]; apply num_ltb_lt in H; congruence.
    + split; [discriminate |]. intros [H | [H _]].
      * apply num_ltb_lt in H. congruence.
      * apply num_eqb_eq in H. congruence.
Qed.

Lemma key_lt_false_iff (k1 k2 : prio) :
  key_lt k1 k2 = false <->
  ~ (num_lt (fst k1) (fst k2) \/
     (num_eq (fst k1) (fst k2) /\ num_lt (snd k1) (snd k2))).
Proof.
  rewrite <- key_lt_iff. destruct (key_lt k1 k2); split; intros H;
    try reflexivity; try discriminate; try congruence.
Qed.

Ltac key_order :=
  intros;
  repeat match goal with
  | H : key_lt _ _ = true |- _ => apply key_lt_iff in H
  | H : key_lt _ _ = false |- _ => apply key_lt_false_iff in H
  | |- key_lt _ _ = true => apply key_lt_iff
  | |- key_lt _ _ = false => apply key_lt_false_iff
  end;
  repeat match goal with k : prio |- _ => destruct k end;
  repeat match goal with x : num |- _ => destruct x end;
  unfold num_lt, num_eq in *; simpl in *; try tauto; try lra.

Lemma key_lt_irrefl (k : prio) : key_lt k k = false.
Proof. key_order. Qed.

Lemma key_lt_trans (a b c : prio) :
  key_lt a b = true -> key_lt b c = true -> key_lt a c = true.
Proof. key_order. Qed.

Lemma key_lt_asym (a b : prio) : key_lt a b = true -> key_lt b a = false.
Proof. key_order. Qed.

Lemma key_nlt_trans (a b c : prio) :
  key_lt b a = false -> key_lt c b = false -> key_lt c a = false.
Proof. key_order. Qed.

Lemma key_lt_total (a b : prio) :
  key_lt a b = false -> key_lt b a = false ->
  num_eq (fst a) (fst b) /\ num_eq (snd a) (snd b).
Proof. key_order. Qed.

(** ** The lookahead value written by [update_state] *)

Lemma num_ltb_asym (a b : num) : num_ltb a b = true -> num_ltb b a = false.
Proof. num_order. Qed.

Lemma update_rhs_value (s : node) (xs : list node) (p p' : planner) (r0 : num) :
  update_rhs s xs p = Ok p' -> dict_get s (rhs p) = Some r0 ->
  exists r1, dict_get s (rhs p') = Some r1 /\
    num_ltb r0 r1 = false /\
    (forall x, In x xs ->
       exists gx c, dict_get x (g p) = Some gx /\ cost p s x = Ok c /\
                    num_ltb (num_add gx c) r1 = false) /\
    (r1 = r0 \/
     exists x gx c, In x xs /\ dict_get x (g p) = Some gx /\
                    cost p s x = Ok c /\ r1 = num_add gx c).
Proof.
  revert p r0. induction xs as [|x xs IH]; intros p r0 H Hr0; simpl in H.
  - inversion H; subst. exists r0. split; [exact Hr0 |].
    split; [apply num_ltb_irrefl |]. split; [intros y [] | left; reflexivity].
  - inv_bind H. rename a into r. apply lookup_ok in E.
    rewrite Hr0 in E. inversion E; subst r. clear E.
    inv_bind H. rename a into gx. apply lookup_ok in E.
    inv_bind H. rename a into c.
    set (rm := num_min r0 (num_add gx c)) in *.
    apply (IH _ rm) in H; [| simpl; apply dict_get_set_eq].
    destruct H as (r1 & Hr1 & Hle & Hall & Hatt). simpl in *.
    assert (Hm : num_ltb r0 rm = false /\ num_ltb (num_add gx c) rm = false /\
                 (rm = r0 \/ rm = num_add gx c)).
    { unfold rm. destruct (num_min_cases r0 (num_add gx c)) as [[-> Hn] | [-> Hn]].
      - split; [apply num_ltb_irrefl |]. split; [exact Hn | left; reflexivity].
      - split; [exact (num_ltb_asym _ _ Hn) |].
        split; [apply num_ltb_irrefl | right; reflexivity]. }
    destruct Hm as (Hm1 & Hm2 & Hm3).
    exists r1. split; [exact Hr1 |]. split; [| split].
    + exact (num_nlt_trans _ _ _ Hle Hm1).
    + intros y [<- | Hy].
      * exists gx, c. split; [exact E |]. split; [exact E0 |].
        exact (num_nlt_trans _ _ _ Hle Hm2).
      * exact (Hall y Hy).
    + destruct Hatt as [-> | (y & gy & cy & Hy & Hgy & Hcy & ->)].
      * destruct Hm3 as [-> | ->]; [left; reflexivity |].
        right. exists x, gx, c. auto.
      * right. exists y, gy, cy. auto.
Qed.

Lemma update_state_rhs_phase (s : node) (p p' : planner) :
  update_state s p = Ok p' -> s <> s_goal p ->
  exists adj p1,
    dict_get s (G p) = Some adj /\
    update_rhs s (dict_keys adj) (with_rhs (dict_set s Inf (rhs p)) p) = Ok p1 /\
    rhs p' = rhs p1.
Proof.
  unfold update_state. intros H Hne. inv_bind H. rename a into p1.
  apply String.eqb_neq in Hne. rewrite Hne in E.
  inv_bind E. rename a into xs. unfold get_neighbor in E0. simpl in E0.
  inv_bind E0. rename a into adj. apply lookup_ok in E1.
  inversion E0; subst xs. clear E0.
  exists adj, p1. split; [exact E1 |]. split; [exact E |].
  inv_bind H. inv_bind H.
  destruct (dict_mem s (OPEN p1)); simpl in *;
    destruct (negb (num_eqb a a0)); simpl in H;
    try (inversion H; reflexivity);
    destruct (negb (set_mem s (CLOSED p1))); simpl in H;
    try (inversion H; reflexivity);
    inv_bind H; inversion H; reflexivity.
Qed.

(** ** Edge-weight updates *)

Lemma dict_set_keys {V : Type} (k : string) (v : V) (d : dict V) :
  dict_mem k d = true -> dict_keys (dict_set k v d) = dict_keys d.
Proof.
  unfold dict_mem, dict_keys. induction d as [|[k' v'] d IH]; simpl; [discriminate |].
  destruct (String.eqb k k') eqn:E; simpl.
  - apply String.eqb_eq in E. subst. reflexivity.
  - intros H. rewrite (IH H). reflexivity.
Qed.

Lemma cost_ext (p q : planner) (u v : node) :
  G q = G p -> weight q = weight p -> cost q u v = cost p u v.
Proof. intros HG Hw. unfold cost. rewrite HG, Hw. reflexivity. Qed.

Lemma set_weight_cost (a b : node) (w : num) (p p' : planner) :
  set_weight a b w p = Ok p' ->
  forall u v,
    cost p' u v = if String.eqb u a && String.eqb v b then Ok w else cost p u v.
Proof.
  intros H u v. apply set_weight_spec in H.
  destruct H as (adj & at_ & Ha & Hb & ->).
  unfold cost, lookup. simpl.
  destruct (String.eqb u a) eqn:Eu; simpl.
  - apply String.eqb_eq in Eu. subst u. rewrite dict_get_set_eq, Ha. simpl.
    destruct (String.eqb v b) eqn:Ev.
    + apply String.eqb_eq in Ev. subst v. rewrite dict_get_set_eq. simpl.
      rewrite dict_get_set_eq. reflexivity.
    + apply String.eqb_neq in Ev. rewrite dict_get_set_neq by exact Ev.
      reflexivity.
  - apply String.eqb_neq in Eu. rewrite dict_get_set_neq by exact Eu.
    reflexivity.
Qed.

Lemma set_weight_neighbours (a b : node) (w : num) (p p' : planner) :
  set_weight a b w p = Ok p' ->
  dict_keys (G p') = dict_keys (G p) /\
  forall u, get_neighbor p' u = get_neighbor p u.
Proof.
  intros H. apply set_weight_spec in H.
  destruct H as (adj & at_ & Ha & Hb & ->). simpl. split.
  - apply dict_set_keys. exact (dict_get_mem _ _ _ Ha).
  - intros u. unfold get_neighbor, lookup. simpl.
    destruct (string_dec u a) as [-> | Hne].
    + rewrite dict_get_set_eq, Ha. simpl.
      rewrite dict_set_keys; [reflexivity | exact (dict_get_mem _ _ _ Hb)].
    + rewrite dict_get_set_neq by exact Hne. reflexivity.
Qed.

Lemma update_state_neighbours (s : node) (p p' : planner) :
  update_state s p = Ok p' ->
  dict_keys (G p') = dict_keys (G p) /\
  forall u, get_neighbor p' u = get_neighbor p u.
Proof.
  intros H. apply update_state_static in H. destruct H as [HG _].
  unfold get_neighbor. rewrite HG. auto.
Qed.

Lemma apply_changes_cost (changes : list change) (p p' : planner) :
  apply_changes changes p = Ok p' ->
  forall u v,
    cost p' u v = match last_write changes u v with
                  | Some w => Ok w
                  | None => cost p u v
                  end.
Proof.
  revert p. induction changes as [|[[a b] w] rest IH]; intros p H u v; simpl in H.
  - inversion H; subst. reflexivity.
  - inv_bind H. rename a0 into p1. inv_bind H. rename a0 into p2.
    inv_bind H. rename a0 into p3. inv_bind H. rename a0 into p4.
    rewrite (IH _ H u v). simpl.
    destruct (last_write rest u v); [reflexivity |].
    apply update_state_static in E1, E2. destruct E1 as [G3 W3], E2 as [G4 W4].
    rewrite (cost_ext p2 p4) by congruence.
    rewrite (set_weight_cost _ _ _ _ _ E0), (set_weight_cost _ _ _ _ _ E).
    destruct (String.eqb u a && String.eqb v b);
      destruct (String.eqb u b && String.eqb v a); reflexivity.
Qed.

Lemma attr_of_cost (p : planner) (u v : node) :
  attr_of (G p) u v (weight p)
  = match cost p u v with Ok c => Some c | _ => None end.
Proof.
  unfold attr_of, cost, lookup.
  destruct (dict_get u (G p)) as [adj|]; simpl; [| reflexivity].
  destruct (dict_get v adj) as [a|]; simpl; [| reflexivity].
  destruct (dict_get (weight p) a); reflexivity.
Qed.

Lemma set_weight_attr (a b : node) (w : num) (p p' : planner) :
  set_weight a b w p = Ok p' ->
  forall u v k, k <> weight p ->
    attr_of (G p') u v k = attr_of (G p) u v k.
Proof.
  intros H u v k Hk. apply set_weight_spec in H.
  destruct H as (adj & at_ & Ha & Hb & ->). unfold attr_of. simpl.
  destruct (string_dec u a) as [-> | Hu].
  - rewrite dict_get_set_eq, Ha.
    destruct (string_dec v b) as [-> | Hv].
    + rewrite dict_get_set_eq, Hb. apply dict_get_set_neq. exact Hk.
    + rewrite dict_get_set_neq by exact Hv. reflexivity.
  - rewrite dict_get_set_neq by exact Hu. reflexivity.
Qed.

Lemma apply_changes_attr (changes : list change) (p p' : planner) :
  apply_changes changes p = Ok p' ->
  forall u v k, k <> weight p ->
    attr_of (G p') u v k = attr_of (G p) u v k.
Proof.
  revert p. induction changes as [|[[a b] w] rest IH]; intros p H u v k Hk;
    simpl in H.
  - inversion H; subst. reflexivity.
  - inv_bind H. rename a0 into p1. inv_bind H. rename a0 into p2.
    inv_bind H. rename a0 into p3. inv_bind H. rename a0 into p4.
    pose proof (set_weight_frame _ _ _ _ _ E) as (_ & _ & _ & _ & W1 & _).
    pose proof (set_weight_frame _ _ _ _ _ E0) as (_ & _ & _ & _ & W2 & _).
    pose proof (update_state_static _ _ _ E1) as [G3 W3].
    pose proof (update_state_static _ _ _ E2) as [G4 W4].
    rewrite (IH _ H u v k) by congruence.
    rewrite G4, G3.
    rewrite (set_weight_attr _ _ _ _ _ E0 u v k) by congruence.
    exact (set_weight_attr _ _ _ _ _ E u v k Hk).
Qed.

(** ** The path that [extract_path] answers *)

Lemma num_le_lt_nlt (a b c : num) :
  num_ltb b a = false -> num_ltb b c = true -> num_ltb c a = false.
Proof. num_order. Qed.

Lemma min_from_spec (p : planner) (s : node) (xs : list node) :
  forall best bv y,
    min_from p s xs best bv = Ok y -> path_value p s best = Ok bv ->
    exists vy, path_value p s y = Ok vy /\ (y = best \/ In y xs) /\
      num_ltb bv vy = false /\
      forall x, In x xs ->
        exists vx, path_value p s x = Ok vx /\ num_ltb vx vy = false.
Proof.
  induction xs as [|x xs IH]; intros best bv y H Hb; simpl in H.
  - inversion H; subst. exists bv. split; [exact Hb |]. split; [auto |].
    split; [apply num_ltb_irrefl | intros z []].
  - inv_bind H. rename a into v. destruct (num_ltb v bv) eqn:Elt.
    + destruct (IH x v y H E) as (vy & Hy & Hin & Hle & Hall).
      exists vy. split; [exact Hy |]. split; [| split].
      * destruct Hin as [-> | Hin]; [right; left; reflexivity | right; right; exact Hin].
      * exact (num_le_lt_nlt _ _ _ Hle Elt).
      * intros z [<- | Hz]; [exists v; auto | exact (Hall z Hz)].
    + destruct (IH best bv y H Hb) as (vy & Hy & Hin & Hle & Hall).
      exists vy. split; [exact Hy |]. split; [| split].
      * destruct Hin as [-> | Hin]; [left; reflexivity | right; right; exact Hin].
      * exact Hle.
      * intros z [<- | Hz]; [| exact (Hall z Hz)].
        exists v. split; [exact E |]. exact (num_nlt_trans _ _ _ Hle Elt).
Qed.

Lemma min_neighbour_spec (p : planner) (s : node) (xs : list node) (y : node) :
  min_neighbour p s xs = Ok y ->
  exists vy, path_value p s y = Ok vy /\ In y xs /\
    forall x, In x xs ->
      exists vx, path_value p s x = Ok vx /\ num_ltb vx vy = false.
Proof.
  destruct xs as [|x xs]; simpl; [discriminate |]. intros H.
  inv_bind H. rename a into v.
  destruct (min_from_spec p s xs x v y H E) as (vy & Hy & Hin & Hle & Hall).
  exists vy. split; [exact Hy |]. split.
  - destruct Hin as [-> | Hin]; [left; reflexivity | right; exact Hin].
  - intros z [<- | Hz]; [exists v; auto | exact (Hall z Hz)].
Qed.

Lemma extract_loop_spec (p : planner) :
  forall n s acc path,
    extract_loop n p s acc = Ok path ->
    exists ext,
      path = acc ++ ext ++ [s_goal p] /\
      priced p (s :: ext ++ [s_goal p]).
Proof.
  induction n as [|n IH]; intros s acc path H; simpl in H; [discriminate |].
  inv_bind H. rename a into xs.
  inv_bind H. rename a into y.
  destruct (min_neighbour_spec p s _ y E0) as (vy & Hy & _).
  assert (Hc : exists c, cost p s y = Ok c).
  { unfold path_value in Hy. inv_bind Hy. inv_bind Hy. eauto. }
  destruct (String.eqb y (s_goal p)) eqn:Eg.
  - apply String.eqb_eq in Eg. subst y. inversion H; subst path.
    exists []. simpl. auto.
  - destruct (IH y _ path H) as (ext & Hpath & Hw).
    exists (y :: ext). split.
    + rewrite Hpath, <- app_assoc. reflexivity.
    + simpl. split; [exact Hc | exact Hw].
Qed.

(** ** The main loop always ends *)

Lemma node_budget_le (C : list node) (e : node * num) :
  (node_budget C e <= 2)%nat.
Proof.
  unfold node_budget. destruct (set_mem (fst e) C); [lia |].
  destruct (is_fin (snd e)); lia.
Qed.

Lemma budget_bound (p : planner) : (budget p <= 2 * List.length (g p))%nat.
Proof.
  unfold budget. generalize (CLOSED p) as C. generalize (g p) as l.
  induction l as [|e l IH]; intros C; simpl; [lia |].
  pose proof (node_budget_le C e). specialize (IH C). lia.
Qed.

Lemma expand_Inv_nodes_wf (so : option node) (p p' : planner) :
  Inv_nodes p /\ wf_graph (weight p) (G p) -> expand so p = Ok p' ->
  Inv_nodes p' /\ wf_graph (weight p') (G p').
Proof.
  intros [H1 H2] H. split; [eapply expand_Inv_nodes; eauto |].
  apply expand_static in H. destruct H as [HG Hw]. rewrite HG, Hw. exact H2.
Qed.

Lemma improve_loop_ends (n : nat) (p : planner) :
  Inv_nodes p -> wf_graph (weight p) (G p) -> (budget p < n)%nat ->
  (exists p', improve_loop n p = Ok p') \/
  improve_loop n p = Raise (KeyError "None").
Proof.
  revert p. induction n as [|n IH]; intros p HIN Hwf Hb; [lia |].
  pose proof HIN as [HI HN]. pose proof HI as ((_ & _ & Hdom) & _).
  simpl. destruct (smallest_key_cases p) as [(s & v & Hsk & Hs) | (Hsk & Hopen)].
  - rewrite Hsk. destruct (stop_test_ok v p Hdom) as (b & Hstop).
    rewrite Hstop. simpl. destruct b; [eauto |].
    destruct (expand_ok s p HIN Hwf Hs) as (p1 & H1). rewrite H1. simpl.
    destruct (expand_Inv_nodes_wf _ _ _ (conj HIN Hwf) H1) as [HIN1 Hwf1].
    apply IH; try assumption.
    pose proof (expand_budget _ _ _ HI H1). lia.
  - rewrite Hsk. destruct (stop_test_ok (Inf, Inf) p Hdom) as (b & Hstop).
    rewrite Hstop. simpl. destruct b; [eauto |]. right. reflexivity.
Qed.

Lemma compute_ends (p : planner) (eps : Q) (fuel : nat) :
  produced p -> graph_ok (weight p) (G p) = true ->
  (2 * List.length (g p) < fuel)%nat ->
  (exists p', compute_or_improve_path fuel eps p = Ok p') \/
  compute_or_improve_path fuel eps p = Raise (KeyError "None").
Proof.
  intros Hp Hok Hfuel.
  pose proof (produced_Inv_nodes p Hp) as [HI HN].
  pose proof (produced_Inv p Hp) as [_ Hi].
  pose proof HI as ((_ & _ & Hdom) & _).
  unfold compute_or_improve_path. rewrite Hi.
  destruct (reprime_ok (with_epsilon eps p) Hdom HN) as (p1 & H1).
  rewrite H1. simpl.
  pose proof (reprime_frame _ _ H1) as ((Hg & _ & _ & _ & Hw & _) & HG & _).
  simpl in Hg, Hw, HG.
  apply improve_loop_ends.
  - split; [eapply reprime_Inv; [| exact H1]; apply HI |].
    eapply reprime_nodes; [| exact H1]. exact HN.
  - rewrite HG, Hw. apply graph_ok_wf, Hok.
  - pose proof (budget_bound p1). rewrite Hg in H. lia.
Qed.

(** ** A start that is cut off from the goal *)

Lemma finite_edge_cost (p : planner) (u v : node) :
  finite_edge (weight p) (G p) u v <-> exists c, cost p u v = Ok (Fin c).
Proof.
  unfold finite_edge, cost, lookup. split.
  - intros (adj & a & c & Hu & Hv & Hc). exists c.
    rewrite Hu. simpl. rewrite Hv. simpl. rewrite Hc. reflexivity.
  - intros (c & H).
    destruct (dict_get u (G p)) as [adj|] eqn:Hu; simpl in H; [| discriminate].
    destruct (dict_get v adj) as [a|] eqn:Hv; simpl in H; [| discriminate].
    destruct (dict_get (weight p) a) as [x|] eqn:Hc; [| discriminate].
    inversion H; subst. exists adj, a, c. auto.
Qed.

Lemma cost_edge_in (p : planner) (u v : node) (c : num) :
  cost p u v = Ok c -> edge_in (G p) u v.
Proof.
  unfold cost, lookup, edge_in. intros H.
  destruct (dict_get u (G p)) as [adj|] eqn:Hu; simpl in H; [| discriminate].
  destruct (dict_get v adj) as [a|] eqn:Hv; simpl in H; [| discriminate].
  exists adj. split; [reflexivity | exact (dict_get_mem _ _ _ Hv)].
Qed.

Lemma sealedb_sound (l : list node) (wt : string) (G0 : graph) :
  sealedb l wt G0 = true -> sealed (in_list l) wt G0.
Proof.
  unfold sealedb, sealed, in_list.
  intros H u v Hu (adj & a & c & Hadj & Ha & Hc).
  rewrite forallb_forall in H. specialize (H _ (dict_get_in _ _ _ Hadj)).
  simpl in H. rewrite Hu in H. simpl in H. rewrite forallb_forall in H.
  specialize (H _ (dict_get_in _ _ _ Ha)). simpl in H. rewrite Hc in H.
  rewrite orb_false_r in H. exact H.
Qed.

Lemma reaches_sealed (wt : string) (G0 : graph) (s : node) :
  sealed (reaches wt G0 s) wt G0.
Proof. intros u v Hu He. exact (reaches_step wt G0 s u v Hu He). Qed.

Lemma far_lookahead (F : node -> Prop) (s : node) (p p' : planner) :
  far_inv F p -> F s -> update_state s p = Ok p' ->
  forall v, dict_get s (rhs p') = Some v -> v = Inf.
Proof.
  intros (Hst & Hgo & Hsl & HK) HF H v Hv.
  assert (Hne : s <> s_goal p) by (intros ->; contradiction).
  destruct (update_state_rhs_phase s p p' H Hne) as (adj & p1 & Hadj & Hrun & Hrhs).
  apply (update_rhs_value s _ _ _ Inf) in Hrun; [| simpl; apply dict_get_set_eq].
  destruct Hrun as (r1 & Hr1 & _ & _ & Hatt).
  rewrite Hrhs, Hr1 in Hv. inversion Hv; subst v.
  destruct Hatt as [-> | (x & gx & c & Hx & Hgx & Hc & ->)]; [reflexivity |].
  assert (Hgx' : dict_get x (g p) = Some gx) by exact Hgx.
  assert (Hc' : cost p s x = Ok c) by exact Hc.
  destruct c as [q|]; [| destruct gx; reflexivity].
  assert (HFx : F x).
  { apply (Hsl s x HF). apply finite_edge_cost. exists q. exact Hc'. }
  destruct (HK x HFx) as (Kg & _). rewrite (Kg gx Hgx'). reflexivity.
Qed.

Lemma update_state_far (F : node -> Prop) (s : node) (p p' : planner) :
  far_inv F p -> update_state s p = Ok p' -> far_inv F p'.
Proof.
  intros HFI H. pose proof (far_lookahead F s p p' HFI) as Hlook.
  pose proof (update_state_frame s p p' H) as ((_ & A & B & _ & C & _) & D & _).
  destruct HFI as (Hst & Hgo & Hsl & HK).
  pose proof H as H0. apply update_state_spec in H.
  destruct H as (r & gs & rs & (Hother & _ & _) & Hg & Hr & Hcase).
  assert (Hrhs' : rhs p' = r).
  { destruct Hcase as [(_ & ->) | [(_ & _ & k & _ & ->) | (_ & _ & ->)]];
      reflexivity. }
  assert (Hs : F s -> num_eqb gs rs = true).
  { intros HFs. destruct (HK s HFs) as (Kg & _).
    assert (Hrs : rs = Inf).
    { apply (Hlook HFs H0). rewrite Hrhs'. exact Hr. }
    rewrite (Kg gs Hg), Hrs. reflexivity. }
  assert (Hrhs : forall u, F u -> forall v, dict_get u r = Some v -> v = Inf).
  { intros u Hu v Hv. destruct (string_dec u s) as [-> | Hus].
    - apply (Hlook Hu H0). rewrite Hrhs'. exact Hv.
    - rewrite (Hother u Hus) in Hv. destruct (HK u Hu) as (_ & Kr & _).
      apply Kr, Hv. }
  assert (Hpop : forall u, F u -> dict_mem u (dict_pop s (OPEN p)) = false).
  { intros u Hu. destruct (HK u Hu) as (_ & _ & Ko & _).
    rewrite dict_mem_pop, Ko. apply andb_false_r. }
  split; [rewrite A; exact Hst |]. split; [rewrite B; exact Hgo |].
  split; [rewrite C, D; exact Hsl |].
  clear A B C D H0 Hlook Hrhs'.
  destruct Hcase as [(_ & ->) | [(Hneq & _ & k & _ & ->) | (Hneq & _ & ->)]];
    simpl; intros u Hu;
    destruct (HK u Hu) as (Kg & Kr & Ko & Ki);
    (split; [exact Kg |]); (split; [exact (Hrhs u Hu) |]).
  - split; [exact (Hpop u Hu) | exact Ki].
  - split; [| exact Ki]. rewrite dict_mem_set, (Hpop u Hu), orb_false_r.
    apply String.eqb_neq. intros ->. rewrite (Hs Hu) in Hneq. discriminate.
  - split; [exact (Hpop u Hu) |]. rewrite dict_mem_set, Ki, orb_false_r.
    apply String.eqb_neq. intros ->. rewrite (Hs Hu) in Hneq. discriminate.
Qed.

Lemma settle_far (F : node -> Prop) (s : node) (v : num) (vis : list node)
    (p : planner) :
  far_inv F p -> dict_mem s (OPEN p) = true ->
  far_inv F (with_g (dict_set s v (g p))
               (with_visited vis (with_OPEN (dict_pop s (OPEN p)) p))).
Proof.
  intros (Hst & Hgo & Hsl & HK) Hs.
  split; [exact Hst |]. split; [exact Hgo |]. split; [exact Hsl |].
  simpl. intros u Hu.
  destruct (HK u Hu) as (Kg & Kr & Ko & Ki).
  assert (Hus : u <> s) by (intros ->; congruence).
  split; [| split; [exact Kr | split; [| exact Ki]]].
  - intros x Hx. rewrite dict_get_set_neq in Hx by exact Hus. apply Kg, Hx.
  - rewrite dict_mem_pop, Ko. apply andb_false_r.
Qed.

Lemma expand_far (F : node -> Prop) (so : option node) (p p' : planner) :
  far_inv F p -> expand so p = Ok p' -> far_inv F p'.
Proof.
  intros HF H. apply expand_spec in H.
  destruct H as (s & gs & rs & adj & _ & Hs & _ & _ & _ & Hcase).
  destruct Hcase as [(_ & H) | (_ & p4 & H & H')].
  - eapply (update_states_ind (far_inv F) (update_state_far F)); [| exact H].
    exact (settle_far F s rs _ p HF Hs).
  - eapply update_state_far; [| exact H'].
    eapply (update_states_ind (far_inv F) (update_state_far F)); [| exact H].
    exact (settle_far F s Inf _ p HF Hs).
Qed.

Lemma reprime_far (F : node -> Prop) (p p' : planner) :
  far_inv F p -> reprime p = Ok p' -> far_inv F p'.
Proof.
  intros (Hst & Hgo & Hsl & HK) H.
  apply reprime_spec in H. destruct H as (o & -> & Hmem & _).
  split; [exact Hst |]. split; [exact Hgo |]. split; [exact Hsl |].
  simpl. intros u Hu.
  destruct (HK u Hu) as (Kg & Kr & Ko & Ki).
  split; [exact Kg |]. split; [exact Kr |]. split; [| reflexivity].
  destruct (dict_mem u o) eqn:E; [| reflexivity].
  apply Hmem in E. destruct E; congruence.
Qed.

Lemma set_weight_far (F : node -> Prop) (a b : node) (w : num) (p p' : planner) :
  w = Inf \/ (F a -> F b) ->
  far_inv F p -> set_weight a b w p = Ok p' -> far_inv F p'.
Proof.
  intros Hw (Hst & Hgo & Hsl & HK) H.
  pose proof (set_weight_cost _ _ _ _ _ H) as Hcost.
  assert (Hsl' : sealed F (weight p') (G p')).
  { intros u v Hu He. apply finite_edge_cost in He. destruct He as (c & Hc).
    rewrite Hcost in Hc.
    destruct (String.eqb u a && String.eqb v b) eqn:E.
    - apply andb_true_iff in E. destruct E as [Eu Ev].
      apply String.eqb_eq in Eu, Ev. subst u v.
      inversion Hc; subst w. destruct Hw as [Hw | Hw]; [discriminate | auto].
    - apply (Hsl u v Hu). apply finite_edge_cost. exists c. exact Hc. }
  apply set_weight_spec in H. destruct H as (adj & at_ & _ & _ & ->).
  split; [exact Hst |]. split; [exact Hgo |]. split; [exact Hsl' |]. exact HK.
Qed.

Lemma apply_changes_far (F : node -> Prop) (changes : list change) :
  keeps_sealed F changes ->
  forall p p', far_inv F p -> apply_changes changes p = Ok p' -> far_inv F p'.
Proof.
  induction changes as [|[[a b] w] rest IH]; intros Hk p p' HF H; simpl in H.
  - inversion H; subst. exact HF.
  - inv_bind H. rename a0 into p1. inv_bind H. rename a0 into p2.
    inv_bind H. rename a0 into p3. inv_bind H. rename a0 into p4.
    assert (Hab : w = Inf \/ (F a <-> F b)).
    { apply (Hk a b w). left. reflexivity. }
    apply (IH (fun x y z Hin => Hk x y z (or_intror Hin)) p4 p'); [| exact H].
    eapply update_state_far; [| exact E2].
    eapply update_state_far; [| exact E1].
    eapply set_weight_far; [| | exact E0].
    + destruct Hab as [-> | Hab]; [left; reflexivity | right; apply Hab].
    + eapply set_weight_far; [| exact HF | exact E].
      destruct Hab as [-> | Hab]; [left; reflexivity | right; apply Hab].
Qed.

Lemma compute_far (F : node -> Prop) (fuel : nat) (eps : Q) (p p' : planner) :
  far_inv F p -> compute_or_improve_path fuel eps p = Ok p' -> far_inv F p'.
Proof.
  intros HF H. unfold compute_or_improve_path in H. inv_bind H. rename a into p1.
  assert (H1 : far_inv F p1).
  { destruct (initialize p).
    - inversion E; subst. exact HF.
    - eapply reprime_far; [| exact E]. exact HF. }
  apply (improve_loop_ind (far_inv F) (expand_far F) fuel p1 p' H1 H).
Qed.

Lemma update_graph_far (F : node -> Prop) (changes : list change) (p p' : planner) :
  keeps_sealed F changes ->
  far_inv F p -> update_graph changes p = Ok p' -> far_inv F p'.
Proof.
  unfold update_graph. intros Hk HF H. inv_bind H. rename a into p1.
  eapply reprime_far; [| exact H].
  exact (apply_changes_far F changes Hk _ _ HF E).
Qed.

Lemma primed_far (F : node -> Prop) (s t : node) (G0 : graph)
    (h : node -> node -> Q) (wt : string) (eps : Q) (k : prio) :
  F s -> ~ F t -> sealed F wt G0 ->
  far_inv F (with_OPEN (dict_set t k []) (init_tables s t G0 h wt eps)).
Proof.
  intros Hs Ht Hsl.
  split; [exact Hs |]. split; [exact Ht |]. split; [exact Hsl |].
  simpl. intros u Hu.
  assert (Hut : u <> t) by (intros ->; contradiction).
  assert (Hg : forall v,
            dict_get u (map (fun s0 : string => (s0, Inf)) (dict_keys G0)) = Some v ->
            v = Inf).
  { intros v. rewrite init_table_get. destruct (dict_mem u G0); congruence. }
  split; [exact Hg |]. split; [| split; [| reflexivity]].
  - intros v. rewrite dict_get_set_neq by exact Hut. apply Hg.
  - unfold dict_mem. simpl. apply String.eqb_neq in Hut. rewrite Hut. reflexivity.
Qed.

Lemma cut_off_produced (F : node -> Prop) (p : planner) :
  cut_off_since F p -> produced p.
Proof.
  induction 1 as [fuel s t G0 h wt eps p _ _ _ H | fuel eps p p' _ IH H
                 | changes p p' _ IH _ H].
  - exact (produced_init _ _ _ _ _ _ _ _ H).
  - exact (produced_improve _ _ _ _ IH H).
  - exact (produced_update _ _ _ IH H).
Qed.

Lemma cut_off_far (F : node -> Prop) (p : planner) :
  cut_off_since F p -> far_inv F p.
Proof.
  induction 1 as [fuel s t G0 h wt eps p Hs Ht Hsl H | fuel eps p p' _ IH H
                 | changes p p' _ IH Hk H].
  - apply ADA_star_spec in H. destruct H as (k & _ & _ & _ & H).
    eapply compute_far; [| exact H]. apply primed_far; assumption.
  - eapply compute_far; [exact IH | exact H].
  - eapply update_graph_far; [exact Hk | exact IH | exact H].
Qed.

Lemma start_is_far (F : node -> Prop) (p : planner) :
  dom_inv p -> far_inv F p -> dict_get (s_start p) (g p) = Some Inf.
Proof.
  intros (Hdom & Hs & _) (Hst & _ & _ & HK). destruct (Hdom _ Hs) as (Hg & _).
  apply dict_mem_get in Hg. destruct Hg as (gs & Hg).
  destruct (HK (s_start p) Hst) as (Kg & _).
  rewrite Hg. rewrite (Kg gs Hg). reflexivity.
Qed.

(** ** The main loop returns when the start is cut off *)

Lemma stop_test_far (F : node -> Prop) (p : planner) :
  dom_inv p -> far_inv F p -> stop_test (Inf, Inf) p = Ok true.
Proof.
  intros (Hdom & Hs & _) (Hst & _ & _ & HK).
  destruct (Hdom _ Hs) as (Hg & Hr).
  destruct (key_ok p (s_start p) Hg Hr) as (k & Hk).
  apply dict_mem_get in Hg, Hr.
  destruct Hg as (gs & Hg). destruct Hr as (rs & Hr).
  destruct (HK (s_start p) Hst) as (Kg & Kr & _).
  rewrite (Kg gs Hg) in Hg. rewrite (Kr rs Hr) in Hr.
  unfold stop_test. rewrite Hk. simpl.
  unfold key_lt. simpl. rewrite andb_false_r. simpl.
  unfold lookup. rewrite Hg, Hr. reflexivity.
Qed.

Lemma expand_far_ready (F : node -> Prop) (so : option node) (p p' : planner) :
  far_ready F p -> expand so p = Ok p' -> far_ready F p'.
Proof.
  intros (H1 & H2 & H3) H. split; [| split].
  - eapply expand_Inv_nodes; eauto.
  - eapply expand_far; eauto.
  - apply expand_static in H. destruct H as [HG Hw]. rewrite HG, Hw. exact H3.
Qed.

Lemma improve_loop_total (F : node -> Prop) (n : nat) (p : planner) :
  far_ready F p -> (budget p < n)%nat ->
  exists p', improve_loop n p = Ok p'.
Proof.
  revert p. induction n as [|n IH]; intros p HR Hb; [lia |].
  pose proof HR as ((HI & HN) & HF & Hwf).
  pose proof HI as ((_ & _ & Hdom) & _).
  simpl. destruct (smallest_key_cases p) as [(s & v & Hsk & Hs) | (Hsk & Hopen)].
  - rewrite Hsk. destruct (stop_test_ok v p Hdom) as (b & Hstop).
    rewrite Hstop. simpl. destruct b; [eauto |].
    destruct (expand_ok s p (conj HI HN) Hwf Hs) as (p1 & H1).
    rewrite H1. simpl. apply IH.
    + eapply expand_far_ready; eauto.
    + pose proof (expand_budget _ _ _ HI H1). lia.
  - rewrite Hsk. rewrite (stop_test_far F p Hdom HF). simpl. eauto.
Qed.

Lemma compute_total (F : node -> Prop) (eps : Q) (p : planner) :
  far_ready F p -> (initialize p = true -> eps = epsilon p) ->
  exists fuel p', compute_or_improve_path fuel eps p = Ok p'.
Proof.
  intros ((HI & HN) & HF & Hwf) Hinit.
  assert (H1 : exists p1,
            (if initialize p
             then Ok (with_initialize false (with_epsilon eps p))
             else reprime (with_epsilon eps p)) = Ok p1 /\ far_ready F p1).
  { destruct (initialize p) eqn:Ei.
    - eexists. split; [reflexivity |].
      split; [| split; [exact HF | exact Hwf]]. split; [| exact HN].
      rewrite (Hinit eq_refl). destruct HI as [H0 Hf].
      split; [exact H0 |]. intros t k Ht. simpl in Ht.
      rewrite <- (Hf t k Ht). reflexivity.
    - destruct (reprime_ok (with_epsilon eps p)) as (p1 & Hp1);
        [apply HI | exact HN |].
      exists p1. split; [exact Hp1 |]. split; [split |].
      + eapply reprime_Inv; [| exact Hp1]. apply HI.
      + eapply reprime_nodes; [| exact Hp1]. exact HN.
      + split; [eapply reprime_far; [| exact Hp1]; exact HF |].
        apply reprime_frame in Hp1.
        destruct Hp1 as ((_ & _ & _ & _ & Hw & _) & HG & _).
        rewrite HG, Hw. exact Hwf. }
  destruct H1 as (p1 & E1 & HR1).
  destruct (improve_loop_total F (S (budget p1)) p1 HR1) as (p' & Hp'); [lia |].
  exists (S (budget p1)), p'. unfold compute_or_improve_path.
  rewrite E1. simpl bind. exact Hp'.
Qed.

Lemma far_ready_of_cut_off (F : node -> Prop) (p : planner) :
  cut_off_since F p -> graph_ok (weight p) (G p) = true -> far_ready F p.
Proof.
  intros Hp Hok. split; [| split].
  - apply produced_Inv_nodes. exact (cut_off_produced F p Hp).
  - apply cut_off_far, Hp.
  - apply graph_ok_wf, Hok.
Qed.

(** ** Path extraction when the start is cut off *)

Lemma extract_loop_total (p : planner) :
  dom_inv p -> wf_graph (weight p) (G p) ->
  forall n s path,
    dict_mem s (G p) = true ->
    extract_loop n p s path = NoFuel \/
    extract_loop n p s path = Raise ValueError \/
    exists path', extract_loop n p s path = Ok path'.
Proof.
  intros Hd Hwf n. induction n as [|n IH]; intros s path HsG; simpl; [auto |].
  apply dict_mem_get in HsG. destruct HsG as (adj & Hadj).
  unfold get_neighbor, lookup. rewrite Hadj. simpl.
  assert (Hpv : forall x, In x (dict_keys adj) -> exists v, path_value p s x = Ok v).
  { intros x Hx. destruct (cost_ok p s x adj Hwf Hadj Hx) as (c & Hc).
    pose proof (neighbours_are_nodes _ _ _ _ _ Hwf Hadj Hx) as HxG.
    destruct Hd as (Hdom & _). destruct (Hdom x HxG) as (Hg & _).
    apply dict_mem_get in Hg. destruct Hg as (gx & Hgx).
    exists (num_add gx c). unfold path_value, lookup. rewrite Hgx. simpl.
    rewrite Hc. reflexivity. }
  destruct (dict_keys adj) as [|x xs] eqn:Ek; simpl; [auto |].
  destruct (Hpv x (or_introl eq_refl)) as (v & Hv). rewrite Hv. simpl.
  destruct (min_from_in p s xs) with (best := x) (bv := v) as (y & Hy & Hin).
  { intros z Hz. apply Hpv. right. exact Hz. }
  rewrite Hy. simpl.
  destruct (String.eqb y (s_goal p)); [right; right; eauto |].
  apply IH. apply (neighbours_are_nodes _ _ _ _ _ Hwf Hadj).
  rewrite Ek. destruct Hin as [-> | Hin]; [left; reflexivity | right; exact Hin].
Qed.

Lemma bind_Ok {A B : Type} (a : A) (k : A -> result B) : bind (Ok a) k = k a.
Proof. reflexivity. Qed.

Lemma path_weight_cons (p : planner) (u v : node) (l : list node) :
  path_weight p (u :: v :: l)
  = (c <- cost p u v ;; w <- path_weight p (v :: l) ;; Ok (num_add c w)).
Proof. reflexivity. Qed.

Lemma priced_has_weight (p : planner) (path : list node) :
  priced p path -> exists w, path_weight p path = Ok w.
Proof.
  induction path as [|u [|v l] IH]; intros H; [simpl; eauto | simpl; eauto |].
  destruct H as ((c & Hc) & H). destruct (IH H) as (w & Hw).
  rewrite path_weight_cons, Hc, bind_Ok, Hw, bind_Ok. eauto.
Qed.

Lemma crossing_weight (F : node -> Prop) (p : planner) (t : node) :
  sealed F (weight p) (G p) -> ~ F t ->
  forall mid u, F u -> priced p (u :: mid ++ [t]) ->
    path_weight p (u :: mid ++ [t]) = Ok Inf.
Proof.
  intros Hsl Ht mid. induction mid as [|v mid IH]; intros u Hu H.
  - simpl in H. destruct H as ((c & Hc) & _). simpl app.
    rewrite path_weight_cons, Hc, bind_Ok. simpl.
    destruct c as [q|]; [| reflexivity].
    exfalso. apply Ht. apply (Hsl u t Hu). apply finite_edge_cost. eauto.
  - change (priced p (u :: v :: mid ++ [t])) in H.
    destruct H as ((c & Hc) & H).
    change (path_weight p (u :: v :: mid ++ [t]) = Ok Inf).
    rewrite path_weight_cons, Hc, bind_Ok.
    destruct c as [q|].
    + assert (Hv : F v).
      { apply (Hsl u v Hu). apply finite_edge_cost. eauto. }
      rewrite (IH v Hv H). reflexivity.
    + destruct (priced_has_weight p _ H) as (w & Hw).
      rewrite Hw, bind_Ok. reflexivity.
Qed.

Lemma priced_stays (F : node -> Prop) (p : planner) (t : node) :
  (forall u v, F u -> edge_in (G p) u v -> F v) ->
  forall mid u, F u -> priced p (u :: mid ++ [t]) -> F t.
Proof.
  intros Hcl mid. induction mid as [|v mid IH]; intros u Hu H.
  - simpl in H. destruct H as ((c & Hc) & _).
    exact (Hcl u t Hu (cost_edge_in p u t c Hc)).
  - change (priced p (u :: v :: mid ++ [t])) in H.
    destruct H as ((c & Hc) & H).
    exact (IH v (Hcl u v Hu (cost_edge_in p u v c Hc)) H).
Qed.

Lemma extract_path_outcomes (p : planner) :
  produced p -> graph_ok (weight p) (G p) = true ->
  forall fuel,
    extract_path fuel p = NoFuel \/
    extract_path fuel p = Raise ValueError \/
    exists mid,
      extract_path fuel p = Ok (s_start p :: mid ++ [s_goal p]) /\
      priced p (s_start p :: mid ++ [s_goal p]).
Proof.
  intros Hp Hok fuel.
  pose proof (produced_Inv_nodes p Hp) as (((_ & _ & Hdom) & _) & _).
  pose proof (graph_ok_wf _ _ Hok) as Hwf.
  unfold extract_path.
  destruct (extract_loop_total p Hdom Hwf fuel (s_start p) [s_start p])
    as [H | [H | (path & H)]]; [apply Hdom | auto | auto |].
  right. right. pose proof H as H0.
  apply extract_loop_spec in H0. destruct H0 as (ext & -> & Hpr).
  exists ext. split; [exact H | exact Hpr].
Qed.

Lemma sealed_reaches (F : node -> Prop) (wt : string) (G0 : graph) (s u : node) :
  sealed F wt G0 -> F s -> reaches wt G0 s u -> F u.
Proof.
  intros Hsl Hs H. induction H as [|v w _ IH He]; [exact Hs |].
  exact (Hsl v w IH He).
Qed.

(** * The claims *)

(** ** Keys and their order *)

(** C4. For a state [s] with entries [g(s) = gs] and [rhs(s) = rs], [key s]
    is [[rs + epsilon * h(start, s), rs]] when [gs > rs] and
    [[gs + h(start, s), gs]] otherwise; and [key_lt k1 k2] holds exactly when
    [k1] has the smaller primary component, or the primaries are equal and
    [k1] has the smaller secondary component. *)
Theorem key_and_key_lt_spec (p : planner) (s : node) (gs rs : num)
    (Hg : dict_get s (g p) = Some gs) (Hr : dict_get s (rhs p) = Some rs) :
  (num_lt rs gs ->
   key p s = Ok (num_add rs (Fin (epsilon p * heursistic p (s_start p) s)), rs)) /\
  (~ num_lt rs gs ->
   key p s = Ok (num_add gs (Fin (heursistic p (s_start p) s)), gs)) /\
  (forall k1 k2 : prio,
     key_lt k1 k2 = true <->
     num_lt (fst k1) (fst k2) \/
     (num_eq (fst k1) (fst k2) /\ num_lt (snd k1) (snd k2))).
Proof.
  assert (Hkey : key p s =
            if num_ltb rs gs
            then Ok (num_add rs (Fin (epsilon p * heursistic p (s_start p) s)), rs)
            else Ok (num_add gs (Fin (heursistic p (s_start p) s)), gs)).
  { unfold key, lookup. rewrite Hg, Hr. reflexivity. }
  split; [| split].
  - intros Hlt. apply num_ltb_lt in Hlt. rewrite Hkey, Hlt. reflexivity.
  - intros Hnlt. rewrite Hkey.
    destruct (num_ltb rs gs) eqn:E; [| reflexivity].
    apply num_ltb_lt in E. contradiction.
  - intros [a1 b1] [a2 b2]. unfold key_lt. simpl.
    destruct (num_ltb a1 a2) eqn:E1.
    + apply num_ltb_lt in E1. split; auto.
    + destruct (num_eqb a1 a2) eqn:E2; simpl.
      * apply num_eqb_eq in E2.
        destruct (num_ltb b1 b2) eqn:E3.
        -- apply num_ltb_lt in E3. split; auto.
        -- split; [discriminate |].
           intros [H | [_ H]]; apply num_ltb_lt in H; congruence.
      * split; [discriminate |].
        intros [H | [H _]].
        -- apply num_ltb_lt in H. congruence.
        -- apply num_eqb_eq in H. congruence.
Qed.

Lemma key_and_key_lt_spec_witness :
  key (init_tables "S" "T" G_tie h_tie "weight" 2) "T"
  = Ok (num_add (Fin 0) (Fin (2 * h_tie "S" "T")), Fin 0).
Proof.
  exact (proj1 (key_and_key_lt_spec
                  (init_tables "S" "T" G_tie h_tie "weight" 2) "T" Inf (Fin 0)
                  eq_refl eq_refl) I).
Defined.

(** C10. A state that is not overconsistent ([g(s) <= rhs(s)]: consistent
    or underconsistent) gets the uninflated key [[g(s) + h(start, s), g(s)]],
    whatever epsilon is: the epsilon-inflated key is used only under the
    strict inequality [g(s) > rhs(s)].  For the start state, the termination
    test compares the smallest open key [v] with this uninflated key and
    asks for [rhs = g]; so once the start is consistent the test is exactly
    "[v] is not below the start's uninflated key". *)
Theorem key_of_consistent_state (p : planner) (s : node) (gs rs : num)
    (Hg : dict_get s (g p) = Some gs) (Hr : dict_get s (rhs p) = Some rs)
    (Hc : ~ num_lt rs gs) :
  key p s = Ok (num_add gs (Fin (heursistic p (s_start p) s)), gs) /\
  (forall eps, key (with_epsilon eps p) s = key p s) /\
  (s = s_start p ->
   forall v : prio,
     stop_test v p =
     Ok (negb (key_lt v (num_add gs (Fin (heursistic p (s_start p) (s_start p))), gs))
         && num_eqb rs gs)) /\
  (s = s_start p -> num_eq gs rs ->
   forall v : prio,
     stop_test v p =
     Ok (negb (key_lt v (num_add gs (Fin (heursistic p (s_start p) (s_start p))), gs)))).
Proof.
  assert (Hnlt : num_ltb rs gs = false).
  { destruct (num_ltb rs gs) eqn:E; [| reflexivity].
    apply num_ltb_lt in E. contradiction. }
  assert (Hkey : forall eps,
            key (with_epsilon eps p) s
            = Ok (num_add gs (Fin (heursistic p (s_start p) s)), gs)).
  { intros eps. unfold key, lookup. simpl. rewrite Hg, Hr. simpl.
    rewrite Hnlt. reflexivity. }
  assert (Hkey0 : key p s = Ok (num_add gs (Fin (heursistic p (s_start p) s)), gs)).
  { unfold key, lookup. rewrite Hg, Hr. simpl. rewrite Hnlt. reflexivity. }
  assert (Hstop : s = s_start p ->
            forall v : prio,
              stop_test v p =
              Ok (negb (key_lt v (num_add gs
                                    (Fin (heursistic p (s_start p) (s_start p))), gs))
                  && num_eqb rs gs)).
  { intros -> v. unfold stop_test. rewrite Hkey0. simpl.
    destruct (key_lt v _); simpl; [reflexivity |].
    unfold lookup. rewrite Hg, Hr. reflexivity. }
  split; [exact Hkey0 |]. split; [| split; [exact Hstop |]].
  - intros eps. rewrite Hkey, Hkey0. reflexivity.
  - intros Hs Heq v. rewrite (Hstop Hs v).
    apply num_eqb_eq in Heq. rewrite num_eqb_sym, Heq, andb_true_r. reflexivity.
Qed.

Lemma key_of_consistent_state_witness :
  (key unit_planner "S" = Ok (num_add (Fin 3) (Fin (h_unit "S" "S")), Fin 3) /\
   stop_test (Fin 5, Fin 0) unit_planner = Ok true) /\
  key idem_updated "B" = Ok (num_add (Fin 1) (Fin (h_idem "S" "B")), Fin 1).
Proof.
  split.
  - assert (Hs : "S" = s_start unit_planner) by (vm_compute; reflexivity).
    destruct (key_of_consistent_state unit_planner "S" (Fin 3) (Fin 3))
      as (K & _ & _ & T).
    + vm_compute. reflexivity.
    + vm_compute. reflexivity.
    + vm_compute. discriminate.
    + split.
      * rewrite K. vm_compute. reflexivity.
      * rewrite (T Hs); vm_compute; reflexivity.
  - destruct (key_of_consistent_state idem_updated "B" (Fin 1) (Fin 4))
      as (K & _).
    + vm_compute. reflexivity.
    + vm_compute. reflexivity.
    + vm_compute. discriminate.
    + rewrite K. vm_compute. reflexivity.
Defined.

(** ** Construction *)

(** C8. When the start or the goal is not a node of the graph, the
    constructor raises [NodeNotFound] with a message in which both endpoints,
    hence the missing one(s), occur; this holds for every fuel, so the main
    loop is never entered. *)
Theorem missing_endpoint_rejected (fuel : nat) (s t : node) (G0 : graph)
    (h : node -> node -> Q) (wt : string) (eps : Q)
    (Hmiss : dict_mem s G0 = false \/ dict_mem t G0 = false) :
  ADA_star fuel s t G0 h wt eps = Raise (NodeNotFound (not_found_msg s t)) /\
  occurs_in s (not_found_msg s t) /\ occurs_in t (not_found_msg s t).
Proof.
  split; [| split].
  - unfold ADA_star.
    destruct Hmiss as [H | H]; rewrite H; simpl;
      [| rewrite orb_true_r]; reflexivity.
  - exists "Either source ", (" or target " ++ t ++ " is not in G")%string.
    reflexivity.
  - exists ("Either source " ++ s ++ " or target ")%string, " is not in G".
    unfold not_found_msg. rewrite !string_app_assoc. reflexivity.
Qed.

Lemma missing_endpoint_rejected_witness :
  ADA_star 0 "A" "Z" G_split h_zero "weight" 1
  = Raise (NodeNotFound "Either source A or target Z is not in G").
Proof.
  exact (proj1 (missing_endpoint_rejected 0 "A" "Z" G_split h_zero "weight" 1
                  (or_intror eq_refl))).
Defined.

(** ** The [g] table is written by the main loop only *)

(** C9. [update_state] and [update_graph] leave the [g] table as it was, and
    with it the endpoints, the heuristic, the weight key, epsilon and the
    visited set.  [update_state] writes [rhs], OPEN and INCONS only: the
    graph and CLOSED are kept as well.  [update_graph] also clears CLOSED and
    writes the graph, but only the weight attribute of the edges its changes
    name: the nodes and every neighbour list stay the same, every other
    attribute of every edge stays the same, the weight of an edge that no
    change names stays the same, and the weight of a named edge is the one
    its last change carries.  ([extract_path] is a function from the planner
    to a path: it returns no planner, so it writes nothing.) *)
Theorem g_written_by_main_loop_only (p p' : planner) :
  (forall s, update_state s p = Ok p' ->
     g p' = g p /\ same_frame p p' /\ G p' = G p /\ CLOSED p' = CLOSED p) /\
  (forall changes, update_graph changes p = Ok p' ->
     g p' = g p /\ same_frame p p' /\
     dict_keys (G p') = dict_keys (G p) /\
     (forall u, get_neighbor p' u = get_neighbor p u) /\
     (forall u v k, k <> weight p \/ last_write changes u v = None ->
        attr_of (G p') u v k = attr_of (G p) u v k) /\
     (forall u v w, last_write changes u v = Some w ->
        attr_of (G p') u v (weight p) = Some w)).
Proof.
  split.
  - intros s H. apply update_state_frame in H. destruct H as (Hf & HG & HC).
    split; [apply Hf |]. auto.
  - intros changes H.
    pose proof (update_graph_frame _ _ _ H) as Hf.
    split; [apply Hf |]. split; [exact Hf |].
    unfold update_graph in H. inv_bind H. rename a into p1.
    apply reprime_frame in H. destruct H as ((_ & _ & _ & _ & Hw & _) & HG & _).
    pose proof (apply_changes_frame _ _ _ E) as (_ & _ & _ & _ & Hw1 & _).
    assert (Hshape : dict_keys (G p1) = dict_keys (G p) /\
                     forall u, get_neighbor p1 u = get_neighbor p u).
    { apply (apply_changes_ind
               (fun q => dict_keys (G q) = dict_keys (G p) /\
                         forall u, get_neighbor q u = get_neighbor p u))
        with (changes := changes) (p := p); [| | auto | exact E].
      - intros s q q' [Q1 Q2] Hs. apply update_state_neighbours in Hs.
        destruct Hs as [S1 S2]. split; [congruence |].
        intros u. rewrite S2. apply Q2.
      - intros a b w q q' [Q1 Q2] Hs. apply set_weight_neighbours in Hs.
        destruct Hs as [S1 S2]. split; [congruence |].
        intros u. rewrite S2. apply Q2. }
    destruct Hshape as [Hk Hn].
    assert (Hcost : forall u v,
              attr_of (G p') u v (weight p)
              = match last_write changes u v with
                | Some w => Some w
                | None => attr_of (G p) u v (weight p)
                end).
    { intros u v. rewrite HG.
      replace (weight p) with (weight p1) at 1 by exact Hw1.
      rewrite attr_of_cost, (apply_changes_cost _ _ _ E u v).
      destruct (last_write changes u v); [reflexivity |].
      rewrite attr_of_cost. reflexivity. }
    split; [rewrite HG; exact Hk |]. split; [| split].
    + intros u. unfold get_neighbor. rewrite HG. apply Hn.
    + intros u v k Hkk. destruct (string_dec k (weight p)) as [-> | Hne].
      * destruct Hkk as [Hkk | Hkk]; [contradiction |].
        rewrite Hcost, Hkk. reflexivity.
      * rewrite HG. exact (apply_changes_attr _ _ _ E u v k Hne).
    + intros u v w Hlw. rewrite Hcost, Hlw. reflexivity.
Qed.

Lemma g_written_by_main_loop_only_witness :
  (g (planner_of (update_state "B" idem_rewritten) split_start) = g idem_rewritten /\
   rhs (planner_of (update_state "B" idem_rewritten) split_start)
   <> rhs idem_rewritten) /\
  (g idem_updated = g idem_planner /\
   attr_of (G idem_updated) "T" "B" (weight idem_planner) = Some (Fin 5) /\
   attr_of (G idem_updated) "S" "A" (weight idem_planner)
   = attr_of (G idem_planner) "S" "A" (weight idem_planner)).
Proof.
  split.
  - split.
    + apply (proj1 (g_written_by_main_loop_only idem_rewritten
                      (planner_of (update_state "B" idem_rewritten) split_start))
               "B").
      vm_compute. reflexivity.
    + vm_compute. discriminate.
  - destruct (proj2 (g_written_by_main_loop_only idem_planner idem_updated)
                [("B", "T", Fin 5)]) as (Hg & _ & _ & _ & Hkeep & Hnew).
    + vm_compute. reflexivity.
    + split; [exact Hg |]. split.
      * apply Hnew. vm_compute. reflexivity.
      * apply Hkeep. right. vm_compute. reflexivity.
Defined.

(** ** Selection of the smallest key *)

(** C3 (the code departs from it). While the constructor runs on [G_tie],
    OPEN holds ["X"] with key [[4, 2]] and ["S"] with key [[4, 4]].
    [smallest_key] answers the state ["S"] with the pair [[4, 2]]: that pair
    is not the key of ["S"], and the key of ["S"] is not the smallest one
    (["X"] ties on the primary and has the smaller secondary).  The
    constructor then ends in [KeyError] on the emptied OPEN. *)
Theorem smallest_key_misses_the_tie_break :
  (p <- tie_after_first_expansion ;;
   Ok (OPEN p, smallest_key p, key p "S"))
  = Ok ([("X", (Fin 4, Fin 2)); ("S", (Fin 4, Fin 4))],
        (Some "S", (Fin 4, Fin 2)),
        Ok (Fin 4, Fin 4)) /\
  key_lt (Fin 4, Fin 2) (Fin 4, Fin 4) = true /\
  ADA_star 10 "S" "T" G_tie h_tie default_weight 2 = Raise (KeyError "None").
Proof. repeat split; vm_compute; reflexivity. Qed.

(** On the same OPEN the selection that the comment describes answers ["X"]
    with its key [[4, 2]], and the constructor run with it returns. *)
Lemma lexicographic_selection_on_the_tie :
  (p <- tie_after_first_expansion ;; Ok (lex_smallest_key p))
  = Ok (Some "X", (Fin 4, Fin 2)) /\
  (p <- lex_ADA_star 10 "S" "T" G_tie h_tie default_weight 2 ;;
   path <- extract_path 10 p ;;
   w <- path_weight p path ;;
   Ok (path, w))
  = Ok (["S"; "X"; "T"], Fin 3).
Proof. split; vm_compute; reflexivity. Qed.

(** ** Edge weights *)

(** C7 (the code departs from it). On an edge without the weight attribute
    the cost lookup raises [KeyError] instead of answering 1, and so does the
    construction of a planner on such a graph. *)
Theorem unset_weight_raises_key_error :
  cost (init_tables "A" "B" G_plain h_zero default_weight default_epsilon) "B" "A"
  = Raise (KeyError "weight") /\
  forall fuel : nat,
    ADA_star (S fuel) "A" "B" G_plain h_zero default_weight default_epsilon
    = Raise (KeyError "weight").
Proof. split; [reflexivity | intros fuel; reflexivity]. Qed.

(** ** The suboptimality bound *)

(** C1 (the code departs from it). [G_bound] has positive weights and
    [h_bound] is consistent for it, before and after the two weight
    increases.  After the increases and [compute_or_improve_path] with
    epsilon 1, [extract_path] answers [S, A, B, T] of weight 6, while
    [S, A, T] has weight 5. *)
Theorem bound_exceeded_after_update :
  (p <- bound_run ;;
   path <- extract_path 10 p ;;
   w <- path_weight p path ;;
   w' <- path_weight p ["S"; "A"; "T"] ;;
   Ok (path, w, w', epsilon p,
       nonneg_weights (weight p) (G p),
       consistent_heuristic (heursistic p) (s_start p) (weight p) (G p)))
  = Ok (["S"; "A"; "B"; "T"], Fin 6, Fin 5, 1, true, true) /\
  nonneg_weights default_weight G_bound = true /\
  consistent_heuristic h_bound "S" default_weight G_bound = true /\
  1 * 5 < 6.
Proof. repeat split; vm_compute; reflexivity. Qed.

(** With the selection that the comment in [smallest_key] describes, the
    same calls end on the path [S, A, T] of weight 5. *)
Lemma bound_kept_by_lexicographic_selection :
  (p <- lex_bound_run ;;
   path <- extract_path 10 p ;;
   w <- path_weight p path ;;
   Ok (path, w))
  = Ok (["S"; "A"; "T"], Fin 5).
Proof. vm_compute. reflexivity. Qed.

(** ** OPEN, CLOSED and INCONS *)

(** C5 (as the claim states it, refuted). After construction on [G_idem]
    with epsilon 3 the state ["A"] is recorded in INCONS and is a member of
    CLOSED at the same time.  Inside the re-priming block of the next call,
    after its first loop has given ["A"] a key, ["A"] is in OPEN, in INCONS
    and in CLOSED at once. *)
Lemma incons_state_is_also_closed :
  (p <- idem_run ;;
   Ok (INCONS p, CLOSED p, dict_mem "A" (INCONS p) && set_mem "A" (CLOSED p)))
  = Ok ([("A", 0%nat)], ["T"; "A"; "B"; "S"], true) /\
  (p <- idem_run ;;
   p1 <- rekey (dict_keys (INCONS p)) (with_epsilon 3 p) ;;
   Ok (dict_mem "A" (OPEN p1), dict_mem "A" (INCONS p1), set_mem "A" (CLOSED p1)))
  = Ok (true, true, true).
Proof. split; vm_compute; reflexivity. Qed.

(** C5 (amended). At every point outside the re-priming block (after each
    statement of the main loop and of [update_state], each weight write and
    each completed re-priming) no state is in both OPEN and CLOSED, no state
    is in both OPEN and INCONS, and every state recorded in INCONS is a
    member of CLOSED.  The states a caller can hold are among these
    ([produced_in_flight]).  Inside the re-priming block (after any number of
    iterations of its two loops, and after [self.INCONS = dict()]) only the
    last part is kept: every state recorded in INCONS is a member of CLOSED,
    while a state may be in OPEN, INCONS and CLOSED at once. *)
Theorem open_closed_incons_discipline (p : planner) :
  (in_flight p ->
   (forall s, dict_mem s (OPEN p) = true -> set_mem s (CLOSED p) = false) /\
   (forall s, dict_mem s (OPEN p) = true -> dict_mem s (INCONS p) = false) /\
   (forall s, dict_mem s (INCONS p) = true -> set_mem s (CLOSED p) = true)) /\
  (in_reprime p ->
   forall s, dict_mem s (INCONS p) = true -> set_mem s (CLOSED p) = true).
Proof.
  split.
  - intros Hp. destruct (in_flight_sets p Hp) as [Hoc Hic].
    split; [exact Hoc |]. split; [| exact Hic].
    intros s Hs. destruct (dict_mem s (INCONS p)) eqn:E; [| reflexivity].
    specialize (Hoc s Hs). rewrite (Hic s E) in Hoc. discriminate.
  - intros Hp.
    destruct Hp as [eps q n p1 Hq H | eps q p1 Hq H | eps q p1 n p3 Hq H H'].
    + destruct (in_flight_sets q Hq) as [_ Hic].
      apply rekey_spec in H. destruct H as (o & -> & _). exact Hic.
    + intros s Hs. discriminate.
    + apply rekey_spec in H'. destruct H' as (o & -> & _).
      intros s Hs. discriminate.
Qed.

Lemma open_closed_incons_discipline_witness :
  ((forall s, dict_mem s (OPEN sets_planner) = true ->
              set_mem s (CLOSED sets_planner) = false) /\
   (forall s, dict_mem s (OPEN sets_planner) = true ->
              dict_mem s (INCONS sets_planner) = false) /\
   (forall s, dict_mem s (INCONS sets_planner) = true ->
              set_mem s (CLOSED sets_planner) = true)) /\
  (forall s, dict_mem s (INCONS sets_repriming) = true ->
             set_mem s (CLOSED sets_repriming) = true) /\
  (OPEN sets_planner, INCONS sets_planner, CLOSED sets_planner)
  = ([("D", (Fin 7, Fin 5))], [("A", 0%nat)], ["T"; "A"; "B"; "S"]) /\
  (dict_mem "A" (OPEN sets_repriming), dict_mem "A" (INCONS sets_repriming),
   set_mem "A" (CLOSED sets_repriming)) = (true, true, true).
Proof.
  assert (Hp : in_flight sets_planner).
  { apply produced_in_flight.
    apply (produced_init 10 "S" "T" G_sets h_sets default_weight 2).
    vm_compute. reflexivity. }
  split; [| split; [| split]].
  - exact (proj1 (open_closed_incons_discipline sets_planner) Hp).
  - apply (proj2 (open_closed_incons_discipline sets_repriming)).
    apply (in_reprime_move 2 sets_planner 1 sets_repriming Hp).
    vm_compute. reflexivity.
  - vm_compute. reflexivity.
  - vm_compute. reflexivity.
Defined.

(** ** Calling [compute_or_improve_path] twice *)

(** C6 (as the claim states it, refuted). The constructor on [G_idem] has
    just returned from [compute_or_improve_path] with epsilon 3 and
    [extract_path] answers [S, B, T] (weight 4); a second call with
    epsilon 3 expands the deferred state and [extract_path] then answers
    [S, A, B, T] (weight 3). *)
Lemma repeated_call_changes_the_path :
  (p1 <- idem_run ;;
   p2 <- compute_or_improve_path 10 3 p1 ;;
   a <- extract_path 10 p1 ;;
   b <- extract_path 10 p2 ;;
   wa <- path_weight p1 a ;;
   wb <- path_weight p2 b ;;
   Ok (INCONS p1, a, wa, b, wb))
  = Ok ([("A", 0%nat)], ["S"; "B"; "T"], Fin 4, ["S"; "A"; "B"; "T"], Fin 3).
Proof. vm_compute. reflexivity. Qed.

(** C6 (amended). When [compute_or_improve_path eps] has just returned with
    an empty INCONS, calling it again with the same [eps] performs no
    expansion: it returns the same planner with CLOSED cleared, so [g] and
    the path answered by [extract_path] are unchanged. *)
Theorem repeated_call_without_incons (eps : Q) (p : planner) (fuel : nat)
    (Hret : returned_from eps p) (Hinc : INCONS p = []) :
  compute_or_improve_path (S fuel) eps p = Ok (with_CLOSED [] p) /\
  g (with_CLOSED [] p) = g p /\
  forall n, extract_path n (with_CLOSED [] p) = extract_path n p.
Proof.
  destruct (returned_from_Inv eps p Hret) as ((_ & Hfresh) & Hi & He & Hstop).
  split; [| split; [reflexivity |]].
  - unfold compute_or_improve_path. rewrite Hi, <- He, with_epsilon_same.
    rewrite (reprime_idle p Hfresh Hinc). simpl.
    change (smallest_key (with_CLOSED [] p)) with (smallest_key p).
    destruct (smallest_key p) as [so v]. simpl in Hstop.
    change (stop_test v (with_CLOSED [] p)) with (stop_test v p).
    rewrite Hstop. reflexivity.
  - intros n. unfold extract_path. simpl. apply extract_loop_ext; reflexivity.
Qed.

Lemma repeated_call_without_incons_witness :
  compute_or_improve_path 1 1 (planner_of split_run split_start)
  = Ok (with_CLOSED [] (planner_of split_run split_start)) /\
  g (with_CLOSED [] (planner_of split_run split_start))
  = g (planner_of split_run split_start) /\
  forall n, extract_path n (with_CLOSED [] (planner_of split_run split_start))
            = extract_path n (planner_of split_run split_start).
Proof.
  apply (repeated_call_without_incons 1 (planner_of split_run split_start) 0).
  - left. exists 10%nat, "A", "C", G_split, h_zero, default_weight.
    vm_compute. reflexivity.
  - vm_compute. reflexivity.
Defined.

(** ** An unreachable goal *)

(** C2 (as the claim states it, refuted). In [G_split] no path leads from
    ["A"] to ["C"]; the constructor terminates with [g("A") = +inf], and the
    subsequent [extract_path] raises nothing: it walks between ["A"] and
    ["B"] for as long as it is given fuel. *)
Lemma extract_path_walks_forever :
  ~ connected G_split "A" "C" /\
  exists p, split_run = Ok p /\ dict_get "A" (g p) = Some Inf /\
            forall fuel, extract_path fuel p = NoFuel.
Proof.
  split; [exact split_not_connected |].
  exists (planner_of split_run split_start).
  split; [vm_compute; reflexivity |]. split; [vm_compute; reflexivity |].
  intros fuel. unfold extract_path.
  assert (Hs : s_start (planner_of split_run split_start) = "A")
    by (vm_compute; reflexivity).
  rewrite Hs.
  apply (split_walk (planner_of split_run split_start)); vm_compute; reflexivity.
Qed.

(** When the start is cut off by an edge of weight [+inf], [extract_path]
    can also answer a path: on [G_cut] the constructor returns with
    [g("S") = +inf], and [extract_path] answers [S, A, T], of weight
    [+inf]. *)
Lemma extract_path_answers_an_infinite_path :
  (p <- ADA_star 10 "S" "T" G_cut h_zero default_weight 1 ;;
   path <- extract_path 10 p ;;
   w <- path_weight p path ;;
   Ok (dict_get "S" (g p), path, w))
  = Ok (Some Inf, ["S"; "A"; "T"], Inf).
Proof. vm_compute. reflexivity. Qed.

(** When the goal is cut off only by a later [update_graph], [g(start)] can
    stay finite.  On the path [S - A - B - T] with unit weights, after
    [T - B] has been set to [+inf] no path of finite weight leads from ["S"]
    to ["T"], yet [compute_or_improve_path] returns with [g("S") = 5] (and
    [extract_path] then walks forever).  With the selection that the comment
    in [smallest_key] describes the same calls end with [g("S") = +inf]. *)
Lemma goal_cut_off_later_keeps_a_finite_g :
  (p <- line_run ;;
   Ok (cost p "B" "T", cost p "T" "B", dict_get "S" (g p), extract_path 10 p))
  = Ok (Ok Inf, Ok Inf, Some (Fin 5), NoFuel) /\
  (forall p, line_run = Ok p -> ~ reaches (weight p) (G p) "S" "T") /\
  (p <- lex_line_run ;; Ok (dict_get "S" (g p))) = Ok (Some Inf).
Proof.
  split; [vm_compute; reflexivity |]. split; [| vm_compute; reflexivity].
  intros p Hp Hr.
  assert (Hsl : sealedb ["S"; "A"; "B"] (weight p) (G p) = true).
  { assert (E : Ok p = line_run) by (symmetry; exact Hp).
    vm_compute in E. inversion E. vm_compute. reflexivity. }
  apply sealedb_sound in Hsl.
  apply (sealed_reaches _ _ _ "S" "T" Hsl) in Hr; [| reflexivity].
  discriminate Hr.
Qed.

(** C2 (amended). On a graph whose neighbours are nodes and whose edges all
    carry the weight attribute:

    - when no path of finite weight leads from the start to the goal, the
      constructor returns, with [g(start) = +inf];
    - let [F] be a set of nodes that holds the start and not the goal and
      that has been sealed ever since construction (no edge of finite weight
      left [F] in the constructor's graph, as is the case for the set of
      nodes the start reaches along edges of finite weight, and no
      [update_graph] call since has put a finite weight on an edge between
      [F] and its complement).  Then no path of finite weight leads from the
      start to the goal, [g(start) = +inf], and every call of
      [compute_or_improve_path] returns without error and leaves
      [g(start) = +inf];
    - in every planner state a caller can hold in which no path of finite
      weight leads from the start to the goal (also when the goal has been
      cut off by a later [update_graph] only), a call of
      [compute_or_improve_path] ends within [2 * |nodes| + 1] iterations, by
      returning or with the [KeyError] of [OPEN.pop(None)]; and
      [extract_path] has three outcomes and no other: for every fuel it is
      still walking, or it has failed with the [ValueError] of [min] over an
      empty neighbour set, or it has answered a path of weight [+inf]; when
      the start and the goal are not joined by edges at all it never answers
      a path. *)
Theorem unreachable_goal :
  (forall (s t : node) (G0 : graph) (h : node -> node -> Q) (wt : string) (eps : Q),
     graph_ok wt G0 = true ->
     dict_mem s G0 = true -> dict_mem t G0 = true ->
     ~ reaches wt G0 s t ->
     exists fuel p,
       ADA_star fuel s t G0 h wt eps = Ok p /\
       dict_get s (g p) = Some Inf /\
       cut_off_since (reaches wt G0 s) p) /\
  (forall (F : node -> Prop) (p : planner),
     cut_off_since F p ->
     graph_ok (weight p) (G p) = true ->
     ~ reaches (weight p) (G p) (s_start p) (s_goal p) /\
     dict_get (s_start p) (g p) = Some Inf /\
     (forall eps, exists fuel p',
        compute_or_improve_path fuel eps p = Ok p' /\
        dict_get (s_start p') (g p') = Some Inf)) /\
  (forall p : planner,
     produced p ->
     graph_ok (weight p) (G p) = true ->
     ~ reaches (weight p) (G p) (s_start p) (s_goal p) ->
     (forall eps fuel, (2 * List.length (g p) < fuel)%nat ->
        (exists p', compute_or_improve_path fuel eps p = Ok p') \/
        compute_or_improve_path fuel eps p = Raise (KeyError "None")) /\
     (forall fuel,
        extract_path fuel p = NoFuel \/
        extract_path fuel p = Raise ValueError \/
        exists path,
          extract_path fuel p = Ok path /\ path_weight p path = Ok Inf) /\
     (~ connected (G p) (s_start p) (s_goal p) ->
      forall fuel,
        extract_path fuel p = NoFuel \/ extract_path fuel p = Raise ValueError)).
Proof.
  split; [| split].
  - intros s t G0 h wt eps Hok Hs Ht Hfar.
    set (p0 := init_tables s t G0 h wt eps).
    assert (Hk : exists k, key p0 t = Ok k).
    { apply key_ok; unfold dict_mem; simpl.
      - rewrite init_table_get, Ht. reflexivity.
      - rewrite dict_get_set_eq. reflexivity. }
    destruct Hk as (k & Hk).
    destruct (compute_total (reaches wt G0 s) eps (with_OPEN (dict_set t k []) p0))
      as (fuel & p & H).
    + split; [apply primed_Inv_nodes; assumption |].
      split; [| apply graph_ok_wf, Hok].
      apply primed_far; [constructor | exact Hfar | apply reaches_sealed].
    + reflexivity.
    + assert (HA : ADA_star fuel s t G0 h wt eps = Ok p).
      { unfold ADA_star. rewrite Hs, Ht. simpl. fold p0. rewrite Hk. simpl.
        exact H. }
      assert (Hcut : cut_off_since (reaches wt G0 s) p).
      { apply (cut_off_init _ fuel s t G0 h wt eps p);
          [constructor | exact Hfar | apply reaches_sealed | exact HA]. }
      exists fuel, p. split; [exact HA |]. split; [| exact Hcut].
      pose proof (produced_Inv_nodes p (cut_off_produced _ p Hcut))
        as (((_ & _ & Hdom) & _) & _).
      pose proof (start_is_far _ p Hdom (cut_off_far _ p Hcut)) as Hg.
      apply ADA_star_spec in HA. destruct HA as (k' & _ & _ & _ & HA).
      apply compute_shape in HA. destruct HA as (A & _).
      rewrite A in Hg. exact Hg.
  - intros F p Hp Hok.
    pose proof (far_ready_of_cut_off F p Hp Hok) as HR.
    pose proof HR as ((HI & HN) & HF & Hwf).
    pose proof HI as ((_ & _ & Hdom) & _).
    pose proof HF as (Hst & Hgo & Hsl & _).
    split; [| split].
    + intros Hr. apply Hgo. exact (sealed_reaches F _ _ _ _ Hsl Hst Hr).
    + exact (start_is_far F p Hdom HF).
    + intros eps.
      destruct (compute_total F eps p HR) as (fuel & p' & H).
      { intros Hi.
        pose proof (produced_Inv p (cut_off_produced F p Hp)) as [_ Hi'].
        congruence. }
      exists fuel, p'. split; [exact H |].
      apply (start_is_far F).
      * apply (produced_Inv_nodes p'
                 (produced_improve fuel eps p p' (cut_off_produced F p Hp) H)).
      * eapply compute_far; eauto.
  - intros p Hp Hok Hfar. split; [| split].
    + intros eps fuel Hfuel. exact (compute_ends p eps fuel Hp Hok Hfuel).
    + intros fuel.
      destruct (extract_path_outcomes p Hp Hok fuel)
        as [H | [H | (mid & H & Hpr)]]; auto.
      right. right. exists (s_start p :: mid ++ [s_goal p]).
      split; [exact H |].
      apply (crossing_weight (reaches (weight p) (G p) (s_start p)) p (s_goal p));
        [apply reaches_sealed | exact Hfar | constructor | exact Hpr].
    + intros Hnc fuel.
      destruct (extract_path_outcomes p Hp Hok fuel)
        as [H | [H | (mid & H & Hpr)]]; auto.
      exfalso. apply Hnc.
      apply (priced_stays (connected (G p) (s_start p)) p (s_goal p)) with
        (mid := mid) (u := s_start p); [| constructor | exact Hpr].
      intros u v Hu He. exact (connected_step _ _ u v Hu He).
Qed.

Lemma unreachable_goal_witness :
  (exists fuel p,
     ADA_star fuel "S" "T" G_cut h_zero default_weight 1 = Ok p /\
     dict_get "S" (g p) = Some Inf /\
     cut_off_since (reaches default_weight G_cut "S") p) /\
  (~ reaches (weight cut_planner) (G cut_planner)
       (s_start cut_planner) (s_goal cut_planner) /\
   dict_get (s_start cut_planner) (g cut_planner) = Some Inf /\
   (forall eps, exists fuel p',
      compute_or_improve_path fuel eps cut_planner = Ok p' /\
      dict_get (s_start p') (g p') = Some Inf)) /\
  (forall fuel,
     extract_path fuel line_planner = NoFuel \/
     extract_path fuel line_planner = Raise ValueError \/
     exists path,
       extract_path fuel line_planner = Ok path /\
       path_weight line_planner path = Ok Inf) /\
  (forall fuel,
     extract_path fuel (planner_of split_run split_start) = NoFuel \/
     extract_path fuel (planner_of split_run split_start) = Raise ValueError).
Proof.
  assert (Hsl : sealed (in_list ["S"; "A"]) default_weight G_cut).
  { apply sealedb_sound. vm_compute. reflexivity. }
  split; [| split; [| split]].
  - apply (proj1 unreachable_goal "S" "T" G_cut h_zero default_weight 1);
      try (vm_compute; reflexivity).
    intros Hr.
    apply (sealed_reaches _ _ _ "S" "T" Hsl) in Hr; [| reflexivity].
    discriminate Hr.
  - apply (proj1 (proj2 unreachable_goal) (in_list ["S"; "A"]) cut_planner).
    + apply (cut_off_update _ [("S", "A", Fin 2)]
               (planner_of (ADA_star 10 "S" "T" G_cut h_zero default_weight 1)
                  split_start)).
      * apply (cut_off_init _ 10 "S" "T" G_cut h_zero default_weight 1).
        -- reflexivity.
        -- intros H. discriminate H.
        -- exact Hsl.
        -- vm_compute. reflexivity.
      * intros a b w [H | []]. inversion H; subst. right.
        split; intros _; reflexivity.
      * vm_compute. reflexivity.
    + vm_compute. reflexivity.
  - apply (proj2 (proj2 unreachable_goal) line_planner).
    + apply (produced_improve 10 1
               (planner_of (p0 <- ADA_star 10 "S" "T" G_line h_line default_weight 1 ;;
                            update_graph [("T", "B", Inf)] p0) split_start)).
      * apply (produced_update [("T", "B", Inf)]
                 (planner_of (ADA_star 10 "S" "T" G_line h_line default_weight 1)
                    split_start)).
        -- apply (produced_init 10 "S" "T" G_line h_line default_weight 1).
           vm_compute. reflexivity.
        -- vm_compute. reflexivity.
      * vm_compute. reflexivity.
    + vm_compute. reflexivity.
    + intros Hr.
      assert (Hl : sealed (in_list ["S"; "A"; "B"]) (weight line_planner)
                     (G line_planner)).
      { apply sealedb_sound. vm_compute. reflexivity. }
      assert (Hs : s_start line_planner = "S") by (vm_compute; reflexivity).
      assert (Ht : s_goal line_planner = "T") by (vm_compute; reflexivity).
      rewrite Hs, Ht in Hr.
      apply (sealed_reaches _ _ _ "S" "T" Hl) in Hr; [| reflexivity].
      discriminate Hr.
  - apply (proj2 (proj2 unreachable_goal) (planner_of split_run split_start)).
    + apply (produced_init 10 "A" "C" G_split h_zero default_weight 1).
      vm_compute. reflexivity.
    + vm_compute. reflexivity.
    + intros Hr.
      assert (Hl : sealed (in_list ["A"; "B"]) (weight (planner_of split_run split_start))
                     (G (planner_of split_run split_start))).
      { apply sealedb_sound. vm_compute. reflexivity. }
      assert (Hs : s_start (planner_of split_run split_start) = "A")
        by (vm_compute; reflexivity).
      assert (Ht : s_goal (planner_of split_run split_start) = "C")
        by (vm_compute; reflexivity).
      rewrite Hs, Ht in Hr.
      apply (sealed_reaches _ _ _ "A" "C" Hl) in Hr; [| reflexivity].
      discriminate Hr.
    + assert (HG : G (planner_of split_run split_start) = G_split)
        by (vm_compute; reflexivity).
      assert (Hs : s_start (planner_of split_run split_start) = "A")
        by (vm_compute; reflexivity).
      assert (Ht : s_goal (planner_of split_run split_start) = "C")
        by (vm_compute; reflexivity).
      rewrite HG, Hs, Ht. exact split_not_connected.
Defined.
